(** * PageRank (pagerank.py): transition model, sampling and iteration

    A shallow embedding of [transition_model], [sample_pagerank] and
    [iterate_pagerank] of src/pagerank.py.

    - A corpus is a Python dict from page names to sets of page names:
      [gmap Page (gset Page)].
    - Numbers are modelled twice.  The main development computes in
      exact rationals [Q], with equalities between computed numbers
      stated with [==] (Qeq): this is the program as its formulas read,
      and every float is a rational, so every damping factor the
      program can receive is covered.  Module [Binary64] at the end of
      the definitions follows the same source in IEEE 754 binary64, the
      arithmetic Python runs; it decides what rounding changes:
      whether the loop of [iterate_pagerank] ends, and whether computed
      values sum to 1 exactly.
    - The literal [0.001] is read as the rational 1/1000.
    - A [for] loop over a dict visits its keys in the order of [keys];
      Python uses insertion order.  Sums of rationals and the
      convergence test do not depend on the order, and the random draws
      range over every element of the list they select from.
    - Exceptions are explicit: every function returns a [result].
    - [iterate_pagerank] keeps two dict objects ([page_ranks] and
      [new_page_rank]) and mutates one of them in place, so its model
      runs over a store of dict objects addressed by locations. *)

From Stdlib Require Import QArith Qabs Lqa.
From Stdlib Require PrimFloat.
From stdpp Require Import gmap strings list fin_maps.

Local Open Scope Q_scope.

(** ** Python values and exceptions *)

Abbreviation Page := string.

(** The built-in exceptions the model tells apart.  [ValueError] is the
    one Python raises for an argument of an invalid value; the program
    has no [raise] statement and no error class of its own. *)
Inductive exn : Type :=
| ZeroDivisionError
| KeyError
| IndexError
| ValueError.

Inductive result (A : Type) : Type :=
| Ok (a : A)
| Raise (e : exn).
Arguments Ok {A} a.
Arguments Raise {A} e.

#[global] Instance result_ret : MRet result := λ A a, Ok a.
#[global] Instance result_bind : MBind result := λ A B f m,
  match m with
  | Ok a => f a
  | Raise e => Raise e
  end.

(** [len(x)] as a number. *)
Definition Qnat (n : nat) : Q := inject_Z (Z.of_nat n).

(** True division [a / b]. *)
Definition pydiv (a b : Q) : result Q :=
  if Qeq_bool b 0 then Raise ZeroDivisionError else Ok (a / b).

(** [d[k]] *)
Definition getitem {V} (d : gmap Page V) (k : Page) : result V :=
  match d !! k with
  | Some v => Ok v
  | None => Raise KeyError
  end.

(** The keys of a dict, in the order the model's [for] loops visit them. *)
Definition keys {V} (d : gmap Page V) : list Page := (map_to_list d).*1.

(** [for x in xs: s = body(x, s)] *)
Fixpoint for_each {A S} (xs : list A) (s : S) (body : A → S → result S)
  : result S :=
  match xs with
  | [] => Ok s
  | x :: xs' => s' ← body x s; for_each xs' s' body
  end.

(** [sum(d.values())] *)
Definition Qsum (l : list Q) : Q := foldr Qplus 0 l.
Definition dict_sum (d : gmap Page Q) : Q := Qsum (map_to_list d).*2.

(** ** transition_model *)

Definition transition_model (corpus : gmap Page (gset Page)) (page : Page)
    (damping_factor : Q) : result (gmap Page Q) :=
  let total_number_of_pages := size corpus in
  let probability_dict : gmap Page Q :=
    foldl (λ pd key, <[key := 0]> pd) ∅ (keys corpus) in
  ls ← getitem corpus page;
  let links := if bool_decide (ls = ∅) then dom corpus else ls in
  for_each (keys probability_dict) probability_dict (λ web_page pd,
    base ← pydiv (1 - damping_factor) (Qnat total_number_of_pages);
    let pd := <[web_page := base]> pd in
    if bool_decide (web_page ∈ links) then
      share ← pydiv damping_factor (Qnat (size links));
      cur ← getitem pd web_page;
      Ok (<[web_page := cur + share]> pd)
    else Ok pd).

(** ** sample_pagerank *)

(** The random source is an explicit sequence of draws [rng 0], [rng 1], ...
    [random.choice(seq)] and [random.choices(population, weights)[0]] each
    consume one draw and return the element it selects; an empty sequence
    raises [IndexError].  The weights fix the probability of each outcome,
    not the set of outcomes, so they do not occur in the result: with a
    damping factor in (0,1) every page of a non-empty corpus has a
    positive weight, every page is a possible outcome and the check of
    [random.choices] on the total of the weights passes.  That check and
    the selection by the weights are modelled in [Binary64]. *)
Definition random_choice (draw : nat) (seq : list Page) : result Page :=
  match seq !! (draw mod length seq)%nat with
  | Some p => Ok p
  | None => Raise IndexError
  end.

Definition random_choices (draw : nat) (population : list Page)
    (weights : list Q) : result Page :=
  random_choice draw population.

(** Lines 100-106: one step of the walk, on the counters and the
    current page. *)
Definition sample_step (rng : nat → nat) (corpus : gmap Page (gset Page))
    (damping_factor : Q) (i : nat) (st : gmap Page Q * Page)
  : result (gmap Page Q * Page) :=
  let '(page_ranks, working_page) := st in
  count ← getitem page_ranks working_page;
  let page_ranks := <[working_page := count + 1]> page_ranks in
  prob_dict ← transition_model corpus working_page damping_factor;
  let pages := keys prob_dict in
  let probabilities := (map_to_list prob_dict).*2 in
  working_page ← random_choices (rng (S i)) pages probabilities;
  Ok (page_ranks, working_page).

(** The sample count [n] is a natural number. *)
Definition sample_pagerank (rng : nat → nat)
    (corpus : gmap Page (gset Page)) (damping_factor : Q) (n : nat)
  : result (gmap Page Q) :=
  let page_ranks : gmap Page Q :=
    foldl (λ pr web_page, <[web_page := 0]> pr) ∅ (keys corpus) in
  working_page ← random_choice (rng 0%nat) (keys corpus);
  st ← for_each (seq 0 n) (page_ranks, working_page)
         (sample_step rng corpus damping_factor);
  let page_ranks := st.1 in
  for_each (keys page_ranks) page_ranks (λ page pr,
    count ← getitem pr page;
    v ← pydiv count (Qnat n);
    Ok (<[page := v]> pr)).

(** The pages on which the walk stands at steps [i], [i+1], ...,
    [i + steps - 1], starting from [working_page]. *)
Fixpoint walk (rng : nat → nat) (corpus : gmap Page (gset Page))
    (damping_factor : Q) (i steps : nat) (working_page : Page)
  : result (list Page) :=
  match steps with
  | O => Ok []
  | S steps' =>
      prob_dict ← transition_model corpus working_page damping_factor;
      next ← random_choices (rng (S i)) (keys prob_dict)
                (map_to_list prob_dict).*2;
      rest ← walk rng corpus damping_factor (S i) steps' next;
      Ok (working_page :: rest)
  end.

(** Number of visits of [p] in a walk. *)
Definition visits (p : Page) (visited : list Page) : nat :=
  length (filter (λ q, q = p) visited).

(** ** iterate_pagerank *)

(** *** The store of dict objects *)

Abbreviation loc := nat.
Abbreviation Store := (gmap loc (gmap Page Q)).

(** Computations that read and write the store and may raise. *)
Definition M (A : Type) : Type := Store → result (A * Store).

#[global] Instance M_ret : MRet M := λ A a σ, Ok (a, σ).
#[global] Instance M_bind : MBind M := λ A B f m σ,
  match m σ with
  | Ok (a, σ') => f a σ'
  | Raise e => Raise e
  end.

Definition lift {A} (r : result A) : M A := λ σ,
  match r with
  | Ok a => Ok (a, σ)
  | Raise e => Raise e
  end.

(** [{}] and [d.copy()] allocate a new object.  A location without an
    object is reported as [KeyError]; no run of the program below
    reaches such a location. *)
Definition dict_new : M loc := λ σ,
  let l := fresh (dom σ) in Ok (l, <[l := ∅]> σ).

Definition dict_copy (l : loc) : M loc := λ σ,
  match σ !! l with
  | Some d => let l' := fresh (dom σ) in Ok (l', <[l' := d]> σ)
  | None => Raise KeyError
  end.

(** [d[k]] and [d[k] = v] on the object at [l]. *)
Definition dict_getitem (l : loc) (k : Page) : M Q := λ σ,
  match σ !! l with
  | Some d => lift (getitem d k) σ
  | None => Raise KeyError
  end.

Definition dict_setitem (l : loc) (k : Page) (v : Q) : M () := λ σ,
  match σ !! l with
  | Some d => Ok ((), <[l := <[k := v]> d]> σ)
  | None => Raise KeyError
  end.

Definition dict_keys (l : loc) : M (list Page) := λ σ,
  match σ !! l with
  | Some d => Ok (keys d, σ)
  | None => Raise KeyError
  end.

(** [for x in xs: s = body(x, s)] over the store. *)
Fixpoint for_st {A S} (xs : list A) (s : S) (body : A → S → M S) : M S :=
  match xs with
  | [] => mret s
  | x :: xs' => s' ← body x s; for_st xs' s' body
  end.

(** *** The relaxation loop *)

Definition threshold : Q := 1 # 1000.

Section iterate.
Variable corpus : gmap Page (gset Page).
Variable damping_factor : Q.

Let number_of_pages : nat := size corpus.

(** Lines 133-144: the value assigned to [new_page_rank[page]]. *)
Definition relax_page (page_ranks : loc) (page : Page) : M Q :=
  total ← lift (pydiv (1 - damping_factor) (Qnat number_of_pages));
  for_st (keys corpus) total (λ working_page total,
    ls ← lift (getitem corpus working_page);
    total ← (if bool_decide (page ∈ ls) then
               r ← dict_getitem page_ranks working_page;
               q ← lift (pydiv r (Qnat (size ls)));
               mret (total + damping_factor * q)
             else mret total);
    if bool_decide (ls = ∅) then
      r ← dict_getitem page_ranks working_page;
      q ← lift (pydiv r (Qnat number_of_pages));
      mret (total + damping_factor * q)
    else mret total).

(** Lines 132-145: one pass over every page. *)
Definition relax_pass (page_ranks new_page_rank : loc) : M () :=
  for_st (keys corpus) () (λ page _,
    total ← relax_page page_ranks page;
    dict_setitem new_page_rank page total).

(** Lines 146-151: the convergence test, leaving at the first page
    whose change reaches the threshold. *)
Fixpoint converged_from (ks : list Page) (page_ranks new_page_rank : loc)
  : M bool :=
  match ks with
  | [] => mret true
  | page :: ks' =>
      a ← dict_getitem new_page_rank page;
      b ← dict_getitem page_ranks page;
      let difference := Qabs (a - b) in
      if Qle_bool threshold difference then mret false
      else converged_from ks' page_ranks new_page_rank
  end.

Definition check_converged (page_ranks new_page_rank : loc) : M bool :=
  ks ← dict_keys page_ranks;
  converged_from ks page_ranks new_page_rank.

(** Lines 131-155: [while True], unrolled at most [fuel] times; [None]
    when the fuel runs out before the loop leaves. *)
Fixpoint while_true (fuel : nat) (page_ranks new_page_rank : loc)
  : M (option loc) :=
  match fuel with
  | O => mret None
  | S fuel' =>
      _ ← relax_pass page_ranks new_page_rank;
      converged ← check_converged page_ranks new_page_rank;
      if converged : bool then mret (Some page_ranks)
      else
        page_ranks ← dict_copy new_page_rank;
        while_true fuel' page_ranks new_page_rank
  end.

(** Lines 122-129. *)
Definition iterate_setup : M (loc * loc) :=
  page_ranks ← dict_new;
  _ ← for_st (keys corpus) () (λ page _,
        v ← lift (pydiv 1 (Qnat number_of_pages));
        dict_setitem page_ranks page v);
  new_page_rank ← dict_copy page_ranks;
  mret (page_ranks, new_page_rank).

Definition iterate_pagerank_st (fuel : nat) : M (option loc) :=
  pp ← iterate_setup;
  while_true fuel pp.1 pp.2.

(** The dict returned to the caller. *)
Definition iterate_pagerank (fuel : nat) : result (option (gmap Page Q)) :=
  match iterate_pagerank_st fuel ∅ with
  | Ok (Some l, σ) =>
      match σ !! l with
      | Some d => Ok (Some d)
      | None => Raise KeyError
      end
  | Ok (None, _) => Ok None
  | Raise e => Raise e
  end.
End iterate.

(** ** Specification vocabulary *)

(** Sum of [f] over a list of pages. *)
Definition sumQ (f : Page → Q) (l : list Page) : Q := Qsum (f <$> l).

(** Every link set of the corpus is a subset of its key set. *)
Definition valid_corpus (corpus : gmap Page (gset Page)) : Prop :=
  map_Forall (λ _ ls, ls ⊆ dom corpus) corpus.

#[global] Instance valid_corpus_dec corpus : Decision (valid_corpus corpus).
Proof. unfold valid_corpus. apply _. Defined.

(** The link set the model follows from a page whose own set is [ls]. *)
Definition effective_links (corpus : gmap Page (gset Page)) (ls : gset Page)
  : gset Page :=
  if bool_decide (ls = ∅) then dom corpus else ls.

(** The probability given to [k]. *)
Definition tm_value (corpus : gmap Page (gset Page)) (d : Q)
    (links : gset Page) (k : Page) : Q :=
  if decide (k ∈ links)
  then (1 - d) / Qnat (size corpus) + d / Qnat (size links)
  else (1 - d) / Qnat (size corpus).

(** The link set of a page, and the rank a dict holds for it. *)
Definition links_of (corpus : gmap Page (gset Page)) (q : Page) : gset Page :=
  default ∅ (corpus !! q).

Definition rank_of (ranks : gmap Page Q) (q : Page) : Q :=
  default 0 (ranks !! q).

(** The new rank of [p] as the specification words it:
    [(1-d)/N + d * Σ_{q : p ∈ links(q)} rank(q)/|links(q)|
             + d * Σ_{q dangling} rank(q)/N]. *)
Definition spec_rank (corpus : gmap Page (gset Page)) (d : Q)
    (rank : Page → Q) (p : Page) : Q :=
  (1 - d) / Qnat (size corpus)
  + d * sumQ (λ q, rank q / Qnat (size (links_of corpus q)))
             (filter (λ q, p ∈ links_of corpus q) (keys corpus))
  + d * sumQ (λ q, rank q / Qnat (size corpus))
             (filter (λ q, links_of corpus q = ∅) (keys corpus)).

(** The same update with the two contributions of each page [q] kept
    together, as the inner loop adds them. *)
Definition update (corpus : gmap Page (gset Page)) (d : Q)
    (rank : Page → Q) (p : Page) : Q :=
  (1 - d) / Qnat (size corpus)
  + sumQ (λ q,
      (if decide (p ∈ links_of corpus q)
       then d * (rank q / Qnat (size (links_of corpus q))) else 0)
      + (if decide (links_of corpus q = ∅)
         then d * (rank q / Qnat (size corpus)) else 0))
      (keys corpus).

(** The share of [q]'s rank that goes to [p]. *)
Definition weight (corpus : gmap Page (gset Page)) (d : Q) (q p : Page) : Q :=
  (if decide (p ∈ links_of corpus q)
   then d / Qnat (size (links_of corpus q)) else 0)
  + (if decide (links_of corpus q = ∅) then d / Qnat (size corpus) else 0).

(** The sequence of rank assignments: [1/N] everywhere, then one update
    after the other. *)
Fixpoint iterate_ranks (corpus : gmap Page (gset Page)) (d : Q) (k : nat)
  : Page → Q :=
  match k with
  | O => λ _, 1 / Qnat (size corpus)
  | S k' => update corpus d (iterate_ranks corpus d k')
  end.

(** One more update moves every page by less than the threshold. *)
Definition settled (corpus : gmap Page (gset Page)) (d : Q)
    (rank : Page → Q) : Prop :=
  ∀ p, p ∈ dom corpus → Qabs (update corpus d rank p - rank p) < threshold.

(** A dict over the pages of the corpus whose values are those of [r]. *)
Definition holds_ranks (corpus : gmap Page (gset Page)) (ranks : gmap Page Q)
    (r : Page → Q) : Prop :=
  dom ranks = dom corpus ∧ ∀ p v, ranks !! p = Some v → v == r p.

(** The state at the top of the loop before pass [k + 1]: two different
    objects, [page_ranks] holding the ranks after [k] updates. *)
Definition loop_inv (corpus : gmap Page (gset Page)) (d : Q)
    (σ : Store) (pr npr : loc) (k : nat) : Prop :=
  pr ≠ npr
  ∧ ∃ old new : gmap Page Q,
      σ !! pr = Some old ∧ σ !! npr = Some new
      ∧ holds_ranks corpus old (iterate_ranks corpus d k)
      ∧ dom new = dom corpus.

(** The test of [settled], computed. *)
Definition settledb (corpus : gmap Page (gset Page)) (d : Q)
    (rank : Page → Q) : bool :=
  forallb (λ p, negb (Qle_bool threshold
                        (Qabs (update corpus d rank p - rank p))))
          (keys corpus).

(** The test passes on the ranks after [k] updates and on none before. *)
Definition first_pass (corpus : gmap Page (gset Page)) (d : Q) (k : nat)
  : bool :=
  settledb corpus d (iterate_ranks corpus d k)
  && forallb (λ j, negb (settledb corpus d (iterate_ranks corpus d j)))
             (seq 0 k).

(** [d^k] *)
Fixpoint geom (d : Q) (k : nat) : Q :=
  match k with
  | O => 1
  | S k' => d * geom d k'
  end.

(** The total change of the ranks in pass [k + 1]. *)
Definition change (corpus : gmap Page (gset Page)) (d : Q) (k : nat) : Q :=
  sumQ (λ p, Qabs (iterate_ranks corpus d (S k) p - iterate_ranks corpus d k p))
       (keys corpus).

(** The states in which the program stands at the top of the [while]
    loop: after the set-up, and after every pass whose test fails. *)
Inductive loop_entry (corpus : gmap Page (gset Page)) (d : Q)
  : Store → loc → loc → Prop :=
| entry_first σ page_ranks new_page_rank :
    iterate_setup corpus ∅ = Ok ((page_ranks, new_page_rank), σ) →
    loop_entry corpus d σ page_ranks new_page_rank
| entry_next σ page_ranks new_page_rank σ1 σ2 page_ranks' :
    loop_entry corpus d σ page_ranks new_page_rank →
    relax_pass corpus d page_ranks new_page_rank σ = Ok ((), σ1) →
    check_converged page_ranks new_page_rank σ1 = Ok (false, σ1) →
    dict_copy new_page_rank σ1 = Ok (page_ranks', σ2) →
    loop_entry corpus d σ2 page_ranks' new_page_rank.

(** ** Example corpora *)

Definition ex3 : gmap Page (gset Page) :=
  <["A" := {["B"; "C"]}]> (<["B" := {["C"]}]> (<["C" := ∅]> ∅)).

Definition ex2 : gmap Page (gset Page) :=
  <["A" := {["B"]}]> (<["B" := ∅]> ∅).

Definition ex_cycle : gmap Page (gset Page) :=
  <["A" := {["B"]}]> (<["B" := {["A"]}]> ∅).

(** A fixed sequence of draws for the examples. *)
Definition rng7 (i : nat) : nat := (7 * i + 2)%nat.

(** ** Further vocabulary *)

(** The probability of stepping from [q] to [p], read from the dict
    [transition_model] returns for [q]. *)
Definition tm_prob (corpus : gmap Page (gset Page)) (d : Q) (q p : Page) : Q :=
  match transition_model corpus q d with
  | Ok pd => rank_of pd p
  | Raise _ => 0
  end.

(** A corpus with a link that leaves it. *)
Definition ex_out : gmap Page (gset Page) :=
  <["A" := {["B"; "Z"]}]> (<["B" := ∅]> ∅).

(** Two results that agree on the counters they carry. *)
Definition same_counters (r r' : result (gmap Page Q * Page)) : Prop :=
  match r, r' with
  | Ok st, Ok st' => st.1 = st'.1
  | Raise e, Raise e' => e = e'
  | _, _ => False
  end.

(** [rng7] for its first ten draws, 0 afterwards. *)
Definition rng7_cut (i : nat) : nat := if (i <? 10)%nat then rng7 i else 0%nat.

(** A corpus without links. *)
Definition ex_nolinks : gmap Page (gset Page) :=
  <["A" := ∅]> (<["B" := ∅]> (<["C" := ∅]> ∅)).

(** Two outcomes of [iterate_pagerank] with the same ranks: both out of
    fuel, or two dicts over the same pages with equal values. *)
Definition same_ranks (o o' : result (option (gmap Page Q))) : Prop :=
  match o, o' with
  | Ok (Some r), Ok (Some r') =>
      dom r = dom r' ∧ ∀ p, rank_of r p == rank_of r' p
  | Ok None, Ok None => True
  | _, _ => False
  end.

(** ** crawl *)

(** [s.endswith(suffix)] *)
Definition endswith (s suffix : string) : bool :=
  let n := String.length s in
  let m := String.length suffix in
  (m <=? n)%nat && String.eqb (String.substring (n - m) m s) suffix.

(** Lines 24-48.  The directory is a dict from the names [os.listdir]
    returns to the text [f.read()] gives for each of them: every entry is
    a readable text file, so the [KeyError] of the model's [getitem],
    which stands for a failing [open], is never raised.  [findall] stands
    for [re.findall] with the pattern of line 38, the [href] targets
    found in a text; the properties below hold for every such function. *)

(** Lines 34-39: the body of the first loop. *)
Definition crawl_collect (findall : string → list Page)
    (directory : gmap Page string) (filename : Page)
    (pages : gmap Page (gset Page)) : result (gmap Page (gset Page)) :=
  if negb (endswith filename ".html") then Ok pages
  else
    contents ← getitem directory filename;
    let links := findall contents in
    Ok (<[filename := list_to_set links ∖ {[filename]}]> pages).

(** Lines 43-46: the body of the second loop. *)
Definition crawl_restrict (filename : Page) (pages : gmap Page (gset Page))
  : result (gmap Page (gset Page)) :=
  ls ← getitem pages filename;
  Ok (<[filename := filter (λ link, link ∈ dom pages) ls]> pages).

Definition crawl (findall : string → list Page) (directory : gmap Page string)
  : result (gmap Page (gset Page)) :=
  pages ← for_each (keys directory) ∅ (crawl_collect findall directory);
  for_each (keys pages) pages crawl_restrict.

(** The link set the first loop stores for [filename]. *)
Definition raw_links (findall : string → list Page) (filename : Page)
    (contents : string) : gset Page :=
  list_to_set (findall contents) ∖ {[filename]}.

(** The names of the directory that end in ".html". *)
Definition html_files (directory : gmap Page string) : gset Page :=
  filter (λ f, endswith f ".html" = true) (dom directory).

(** A stand-in for [re.findall] in the examples: the text of a file is
    the list of its link targets, separated by spaces. *)
Fixpoint words_of (cur : string) (s : string) : list string :=
  match s with
  | EmptyString => [String.rev cur]
  | String c s' =>
      if Ascii.eqb c (Ascii.ascii_of_nat 32)
      then String.rev cur :: words_of "" s'
      else words_of (String c cur) s'
  end.

Definition ex_findall (contents : string) : list Page := words_of "" contents.

Definition ex_dir : gmap Page string :=
  <["1.html" := "2.html 3.html 1.html style.css"]>
    (<["2.html" := "3.html missing.html"]>
       (<["3.html" := "nothing"]> (<["style.css" := "1.html"]> ∅))).

(** ** The same program in binary64

    The definitions above compute in exact rationals.  This module
    follows the source once more with the numbers Python computes with:
    [float] is IEEE 754 binary64 with rounding to nearest-even, a dict is
    an association list in insertion order (the order in which [for]
    visits it and in which the additions are made), and
    [random.choices] checks the total of its weights.  [page_ranks] and
    [new_page_rank] are two different objects at every pass (shown on
    the store model), so here each is a value of its own. *)

Module Binary64.
Import PrimFloat.

Abbreviation pydict V := (list (Page * V)).

(** [d.get(k)], [d[k]], [d[k] = v] and the keys and values in order. *)
Definition lookup {V} (d : pydict V) (k : Page) : option V :=
  snd <$> List.find (λ kv, bool_decide (kv.1 = k)) d.

Definition getitem {V} (d : pydict V) (k : Page) : result V :=
  match lookup d k with
  | Some v => Ok v
  | None => Raise KeyError
  end.

Fixpoint setitem {V} (d : pydict V) (k : Page) (v : V) : pydict V :=
  match d with
  | [] => [(k, v)]
  | (k', v') :: d' =>
      if bool_decide (k' = k) then (k, v) :: d'
      else (k', v') :: setitem d' k v
  end.

Definition keys {V} (d : pydict V) : list Page := d.*1.
Definition values {V} (d : pydict V) : list V := d.*2.

(** The float of a small non-negative int (exact below 2^53). *)
Fixpoint of_nat (n : nat) : float :=
  match n with
  | O => 0%float
  | S n' => (of_nat n' + 1)%float
  end.

(** True division; on two small ints it is the division of their floats. *)
Definition truediv (a b : float) : result float :=
  if (b =? 0)%float then Raise ZeroDivisionError else Ok (a / b)%float.

(** [sum(d.values())] *)
Definition dict_sum (d : pydict float) : float :=
  foldl add 0%float (values d).

(** The double nearest to 0.001. *)
Definition threshold : float := 0x1.0624dd2f1a9fcp-10%float.

(** *** transition_model *)

Definition transition_model (corpus : pydict (gset Page)) (page : Page)
    (damping_factor : float) : result (pydict float) :=
  let total_number_of_pages := length corpus in
  let probability_dict : pydict float :=
    foldl (λ pd key, setitem pd key 0%float) [] (keys corpus) in
  ls ← getitem corpus page;
  let in_links (p : Page) : bool :=
    if bool_decide (ls ≠ ∅) then bool_decide (p ∈ ls)
    else bool_decide (p ∈ keys corpus) in
  let len_links : nat :=
    if bool_decide (ls ≠ ∅) then size ls else length corpus in
  for_each (keys probability_dict) probability_dict (λ web_page pd,
    base ← truediv (1 - damping_factor)%float (of_nat total_number_of_pages);
    let pd := setitem pd web_page base in
    if in_links web_page then
      share ← truediv damping_factor (of_nat len_links);
      cur ← getitem pd web_page;
      Ok (setitem pd web_page (cur + share)%float)
    else Ok pd).

(** *** sample_pagerank *)

(** [itertools.accumulate(weights)]: the running sums, the first one
    being the first weight itself. *)
Fixpoint accumulate_from (acc : float) (ws : list float) : list float :=
  match ws with
  | [] => []
  | w :: ws' => (acc + w)%float :: accumulate_from (acc + w)%float ws'
  end.

Definition accumulate (ws : list float) : list float :=
  match ws with
  | [] => []
  | w :: ws' => w :: accumulate_from w ws'
  end.

(** [bisect.bisect(a, x, lo, hi)]: the binary search of the library,
    halving [lo, hi) until it is empty; [length a] turns are enough. *)
Fixpoint bisect (fuel : nat) (a : list float) (x : float) (lo hi : nat)
  : result nat :=
  match fuel with
  | O => Ok lo
  | S fuel' =>
      if (lo <? hi)%nat then
        let mid := ((lo + hi) / 2)%nat in
        match a !! mid with
        | None => Raise IndexError
        | Some a_mid =>
            if (x <? a_mid)%float then bisect fuel' a x lo mid
            else bisect fuel' a x (S mid) hi
        end
      else Ok lo
  end.

(** [random.choices(population, weights)[0]] as CPython's random.py
    computes it from [u], the value of [random()] in [0, 1): the total of
    the weights is checked, then [u * total] is located among the running
    sums. *)
Definition random_choices (u : float) (population : list Page)
    (weights : list float) : result Page :=
  let n := length population in
  let cum_weights := accumulate weights in
  if bool_decide (length cum_weights ≠ n) then Raise ValueError
  else
    match last cum_weights with
    | None => Raise IndexError
    | Some t =>
        let total := (t + 0)%float in
        if (total <=? 0)%float then Raise ValueError
        else if negb (is_finite total) then Raise ValueError
        else
          i ← bisect (length cum_weights) cum_weights (u * total)%float
                0%nat (n - 1)%nat;
          match population !! i with
          | Some p => Ok p
          | None => Raise IndexError
          end
    end.

(** The random source: [start] selects the first page
    ([random.choice]), [random i] is the value of [random()] in step [i]. *)
Definition sample_step (random : nat → float) (corpus : pydict (gset Page))
    (damping_factor : float) (i : nat) (st : pydict nat * Page)
  : result (pydict nat * Page) :=
  let '(page_ranks, working_page) := st in
  count ← getitem page_ranks working_page;
  let page_ranks := setitem page_ranks working_page (count + 1)%nat in
  prob_dict ← transition_model corpus working_page damping_factor;
  let pages := keys prob_dict in
  let probabilities := values prob_dict in
  working_page ← random_choices (random i) pages probabilities;
  Ok (page_ranks, working_page).

(** The counters are ints until the last loop divides them by [n]; the
    model keeps the ints in one dict and builds the dict of floats from
    it, entry by entry in the same order. *)
Definition sample_pagerank (start : nat) (random : nat → float)
    (corpus : pydict (gset Page)) (damping_factor : float) (n : nat)
  : result (pydict float) :=
  let page_ranks : pydict nat :=
    foldl (λ pr web_page, setitem pr web_page 0%nat) [] (keys corpus) in
  working_page ← random_choice start (keys corpus);
  st ← for_each (seq 0 n) (page_ranks, working_page)
         (sample_step random corpus damping_factor);
  let page_ranks := st.1 in
  for_each (keys page_ranks) [] (λ page out,
    count ← getitem page_ranks page;
    v ← truediv (of_nat count) (of_nat n);
    Ok (setitem out page v)).

(** *** iterate_pagerank *)

Section iterate.
Variable corpus : pydict (gset Page).
Variable damping_factor : float.

Let number_of_pages : nat := length corpus.

Definition relax_page (page_ranks : pydict float) (page : Page)
  : result float :=
  total ← truediv (1 - damping_factor)%float (of_nat number_of_pages);
  for_each (keys corpus) total (λ working_page total,
    ls ← getitem corpus working_page;
    total ← (if bool_decide (page ∈ ls) then
               r ← getitem page_ranks working_page;
               q ← truediv r (of_nat (size ls));
               Ok (total + damping_factor * q)%float
             else Ok total);
    if bool_decide (ls = ∅) then
      r ← getitem page_ranks working_page;
      q ← truediv r (of_nat number_of_pages);
      Ok (total + damping_factor * q)%float
    else Ok total).

Definition relax_pass (page_ranks new_page_rank : pydict float)
  : result (pydict float) :=
  for_each (keys corpus) new_page_rank (λ page new_page_rank,
    total ← relax_page page_ranks page;
    Ok (setitem new_page_rank page total)).

Fixpoint converged_from (ks : list Page)
    (page_ranks new_page_rank : pydict float) : result bool :=
  match ks with
  | [] => Ok true
  | page :: ks' =>
      a ← getitem new_page_rank page;
      b ← getitem page_ranks page;
      let difference := abs (a - b)%float in
      if (threshold <=? difference)%float then Ok false
      else converged_from ks' page_ranks new_page_rank
  end.

(** One turn of [while True]: the new ranks, and whether the test
    passed. *)
Definition loop_body (page_ranks new_page_rank : pydict float)
  : result (pydict float * bool) :=
  new_page_rank ← relax_pass page_ranks new_page_rank;
  converged ← converged_from (keys page_ranks) page_ranks new_page_rank;
  Ok (new_page_rank, converged).

Fixpoint while_true (fuel : nat) (page_ranks new_page_rank : pydict float)
  : result (option (pydict float)) :=
  match fuel with
  | O => Ok None
  | S fuel' =>
      '(new_page_rank, converged) ← loop_body page_ranks new_page_rank;
      if converged : bool then Ok (Some page_ranks)
      else while_true fuel' new_page_rank new_page_rank
  end.

Definition iterate_setup : result (pydict float) :=
  for_each (keys corpus) [] (λ page page_ranks,
    v ← truediv 1%float (of_nat number_of_pages);
    Ok (setitem page_ranks page v)).

Definition iterate_pagerank (fuel : nat) : result (option (pydict float)) :=
  page_ranks ← iterate_setup;
  while_true fuel page_ranks page_ranks.
End iterate.

(** Every link set is a subset of the keys. *)
Definition valid_corpus (corpus : pydict (gset Page)) : bool :=
  forallb (λ kv, bool_decide (kv.2 ⊆ list_to_set (keys corpus))) corpus.

(** *** Inputs on which rounding shows *)

Definition one : float := 1%float.

(** The largest double below 1, written 0.9999999999999999. *)
Definition below_one : float := 0x1.fffffffffffffp-1%float.

(** A valid corpus of three pages, taken with the damping factor
    0.9999999999999999. *)
Definition cycle_corpus : pydict (gset Page) :=
  [("A", {["B"; "C"]}); ("B", {["A"]}); ("C", {["A"]})].

Definition cycle_damping : float := below_one.

(** The ranks on it at the start, after one pass, and after every later
    even and odd number of passes. *)
Definition cycle_start : pydict float :=
  [("A", 0x1.5555555555555p-2%float); ("B", 0x1.5555555555555p-2%float);
   ("C", 0x1.5555555555555p-2%float)].

Definition cycle_first : pydict float :=
  [("A", 0x1.5555555555554p-1%float); ("B", 0x1.5555555555555p-3%float);
   ("C", 0x1.5555555555555p-3%float)].

Definition cycle_even : pydict float :=
  [("A", 0x1.5555555555554p-2%float); ("B", 0x1.5555555555554p-2%float);
   ("C", 0x1.5555555555554p-2%float)].

Definition cycle_odd : pydict float :=
  [("A", 0x1.5555555555554p-1%float); ("B", 0x1.5555555555554p-3%float);
   ("C", 0x1.5555555555554p-3%float)].

(** The double nearest to 0.85; the corpus of [ex3] in insertion order;
    values of [random()] that lead from "A" to "B", keep the walk on "B"
    three times and then lead to "C". *)
Definition damping_085 : float := 0x1.b333333333333p-1%float.

Definition ex3_ordered : pydict (gset Page) :=
  [("A", {["B"; "C"]}); ("B", {["C"]}); ("C", ∅)].

Definition random_141 (i : nat) : float :=
  nth i [0x1p-2; 0x1p-4; 0x1p-4; 0x1p-4; 0x1p-1]%float 0%float.

(** The doubles 1/6 and 4/6, as [1 / 6] and [4 / 6] evaluate. *)
Definition sixths_141 : pydict float :=
  [("A", 0x1.5555555555555p-3%float); ("B", 0x1.5555555555555p-1%float);
   ("C", 0x1.5555555555555p-3%float)].
End Binary64.

(** * Properties *)

(** ** Sums of rationals over lists of pages *)

Lemma Qnat_S n : Qnat (S n) == Qnat n + 1.
Proof. unfold Qnat. rewrite Nat2Z.inj_succ, <- Z.add_1_r, inject_Z_plus. reflexivity. Qed.

Lemma Qnat_nonneg n : 0 <= Qnat n.
Proof. unfold Qnat, Qle. simpl. lia. Qed.

Lemma Qnat_pos n : (0 < n)%nat → 0 < Qnat n.
Proof. intros H. unfold Qnat, Qlt. simpl. lia. Qed.

Lemma Qnat_eq_bool n : (0 < n)%nat → Qeq_bool (Qnat n) 0 = false.
Proof.
  intros H. apply not_true_is_false. intros E%Qeq_bool_iff.
  pose proof (Qnat_pos n H). lra.
Qed.

Lemma pydiv_ok a n : (0 < n)%nat → pydiv a (Qnat n) = Ok (a / Qnat n).
Proof. intros H. unfold pydiv. by rewrite Qnat_eq_bool. Qed.

Lemma sumQ_nil f : sumQ f [] = 0.
Proof. reflexivity. Qed.

Lemma sumQ_cons f x l : sumQ f (x :: l) = f x + sumQ f l.
Proof. reflexivity. Qed.

Lemma sumQ_ext f g l :
  (∀ x, x ∈ l → f x == g x) → sumQ f l == sumQ g l.
Proof.
  induction l as [|x l IH]; intros H; [reflexivity|].
  rewrite !sumQ_cons, (H x), IH; [reflexivity| |]; set_solver.
Qed.

Lemma sumQ_le f g l :
  (∀ x, x ∈ l → f x <= g x) → sumQ f l <= sumQ g l.
Proof.
  induction l as [|x l IH]; intros H; [apply Qle_refl|].
  rewrite !sumQ_cons. apply Qplus_le_compat; [apply H|apply IH]; set_solver.
Qed.

Lemma sumQ_nonneg f l : (∀ x, x ∈ l → 0 <= f x) → 0 <= sumQ f l.
Proof.
  induction l as [|x l IH]; intros H; [apply Qle_refl|].
  rewrite sumQ_cons.
  assert (0 <= f x) by (apply H; set_solver).
  assert (0 <= sumQ f l) by (apply IH; set_solver). lra.
Qed.

Lemma sumQ_plus f g l : sumQ (λ x, f x + g x) l == sumQ f l + sumQ g l.
Proof.
  induction l as [|x l IH]; [reflexivity|]. rewrite !sumQ_cons, IH. ring.
Qed.

Lemma sumQ_scal c f l : sumQ (λ x, c * f x) l == c * sumQ f l.
Proof.
  induction l as [|x l IH]; [simpl; unfold sumQ; simpl; ring|].
  rewrite !sumQ_cons, IH. ring.
Qed.

Lemma sumQ_const c l : sumQ (λ _, c) l == Qnat (length l) * c.
Proof.
  induction l as [|x l IH]; [unfold sumQ, Qnat; simpl; ring|].
  rewrite sumQ_cons, IH. simpl length. rewrite Qnat_S. ring.
Qed.

Lemma sumQ_zero l : sumQ (λ _, 0) l == 0.
Proof. rewrite sumQ_const. ring. Qed.

Lemma sumQ_perm f l1 l2 : l1 ≡ₚ l2 → sumQ f l1 == sumQ f l2.
Proof.
  induction 1 as [|x l1 l2 _ IH|x y l|l1 l2 l3 _ IH1 _ IH2].
  - reflexivity.
  - rewrite !sumQ_cons, IH. reflexivity.
  - rewrite !sumQ_cons. ring.
  - by rewrite IH1.
Qed.

Lemma sumQ_exchange (f : Page → Page → Q) l1 l2 :
  sumQ (λ x, sumQ (λ y, f x y) l2) l1 == sumQ (λ y, sumQ (λ x, f x y) l1) l2.
Proof.
  induction l1 as [|x l1 IH].
  - rewrite sumQ_nil. symmetry. apply sumQ_zero.
  - rewrite sumQ_cons, IH.
    rewrite <- sumQ_plus. apply sumQ_ext; intros y _. by rewrite sumQ_cons.
Qed.

Lemma sumQ_abs f l : Qabs (sumQ f l) <= sumQ (λ x, Qabs (f x)) l.
Proof.
  induction l as [|x l IH]; [rewrite !sumQ_nil; simpl; apply Qle_refl|].
  rewrite !sumQ_cons.
  eapply Qle_trans; [apply Qabs_triangle|]. lra.
Qed.

(** An indicator sum counts the selected elements. *)
Lemma sumQ_indicator (P : Page → Prop) `{!∀ x, Decision (P x)} c l :
  sumQ (λ x, if decide (P x) then c else 0) l
  == Qnat (length (filter P l)) * c.
Proof.
  induction l as [|x l IH]; [unfold sumQ, Qnat; simpl; ring|].
  rewrite sumQ_cons, IH, filter_cons.
  destruct (decide (P x)); simpl length; rewrite ?Qnat_S; ring.
Qed.

(** ** Keys of a dict *)

Lemma elem_of_keys {V} (d : gmap Page V) k : k ∈ keys d ↔ k ∈ dom d.
Proof.
  unfold keys. rewrite elem_of_dom, list_elem_of_fmap. split.
  - intros [[k' v] [-> H%elem_of_map_to_list]]. by exists v.
  - intros [v H]. exists (k, v). split; [done|]. by apply elem_of_map_to_list.
Qed.

Lemma NoDup_keys {V} (d : gmap Page V) : NoDup (keys d).
Proof. apply NoDup_fst_map_to_list. Qed.

Lemma length_keys {V} (d : gmap Page V) : length (keys d) = size d.
Proof. unfold keys. by rewrite length_fmap, length_map_to_list. Qed.

Lemma keys_perm {V W} (d : gmap Page V) (e : gmap Page W) :
  dom d = dom e → keys d ≡ₚ keys e.
Proof.
  intros H. apply NoDup_Permutation; [apply NoDup_keys..|].
  intros k. by rewrite !elem_of_keys, H.
Qed.

Lemma keys_filter_size {V} (d : gmap Page V) (X : gset Page) :
  X ⊆ dom d → length (filter (.∈ X) (keys d)) = size X.
Proof.
  intros H. unfold size at 1, set_size. simpl. apply Permutation_length.
  apply NoDup_Permutation.
  - apply NoDup_filter, NoDup_keys.
  - apply NoDup_elements.
  - intros k. rewrite list_elem_of_filter, elem_of_keys, elem_of_elements.
    split; [by intros [? _]|]. intros Hk. split; [done|]. by apply H.
Qed.

Lemma size_pos_elem {V} (d : gmap Page V) k : k ∈ dom d → (0 < size d)%nat.
Proof.
  intros [v H]%elem_of_dom.
  destruct (decide (size d = 0%nat)) as [E%map_size_empty_iff|]; [|lia].
  subst. by rewrite lookup_empty in H.
Qed.

Lemma gset_size_pos_elem (X : gset Page) k : k ∈ X → (0 < size X)%nat.
Proof.
  intros H. destruct (decide (size X = 0%nat)) as [E%size_empty_iff|]; [|lia].
  rewrite E in H. by apply not_elem_of_empty in H.
Qed.

(** The sum of a dict whose values are given, up to [==], by [f]. *)
Lemma dict_sum_fun (d : gmap Page Q) (f : Page → Q) :
  (∀ k v, d !! k = Some v → v == f k) → dict_sum d == sumQ f (keys d).
Proof.
  intros H. unfold dict_sum, sumQ, keys.
  assert (Hl : ∀ x, x ∈ map_to_list d → x.2 == f x.1).
  { intros [k v] Hx%elem_of_map_to_list. by apply H. }
  induction (map_to_list d) as [|x l IH]; [reflexivity|].
  simpl. rewrite (Hl x), IH; [reflexivity| |]; set_solver.
Qed.

(** ** Loops that assign every key of a dict *)

Lemma zero_fill_lookup (ks : list Page) (m : gmap Page Q) k :
  foldl (λ pd key, <[key := 0]> pd) m ks !! k
  = if decide (k ∈ ks) then Some 0 else m !! k.
Proof.
  revert m. induction ks as [|x ks IH]; intros m; cbn [foldl].
  - by rewrite decide_False by set_solver.
  - rewrite IH. destruct (decide (k ∈ ks)) as [Hk|Hk].
    + by rewrite decide_True by set_solver.
    + destruct (decide (k = x)) as [->|Hne].
      * rewrite lookup_insert_eq. by rewrite decide_True by set_solver.
      * rewrite lookup_insert_ne by done.
        rewrite decide_False; [done|]. by intros [?|?]%elem_of_cons.
Qed.

Lemma zero_fill_dom {V} (d : gmap Page V) :
  dom (foldl (λ pd key, <[key := 0]> pd) (∅ : gmap Page Q) (keys d)) = dom d.
Proof.
  apply set_eq. intros k. rewrite elem_of_dom, zero_fill_lookup.
  destruct (decide (k ∈ keys d)) as [Hk|Hk].
  - apply elem_of_keys in Hk. split; [done|]. by eexists.
  - rewrite elem_of_keys in Hk. rewrite lookup_empty. split; [|done].
    by intros [? ?].
Qed.

Lemma for_each_assign (g : Page → Q → Q) (body : Page → gmap Page Q → result (gmap Page Q))
    (ks : list Page) (m : gmap Page Q) :
  (∀ k m' v, k ∈ ks → m' !! k = Some v → body k m' = Ok (<[k := g k v]> m')) →
  NoDup ks →
  (∀ k, k ∈ ks → is_Some (m !! k)) →
  ∃ m', for_each ks m body = Ok m'
        ∧ ∀ k, m' !! k = if decide (k ∈ ks) then g k <$> m !! k else m !! k.
Proof.
  revert m. induction ks as [|x ks IH]; intros m Hbody Hnd Hin; cbn [for_each].
  - exists m. split; [done|]. intros k. by rewrite decide_False by set_solver.
  - apply NoDup_cons in Hnd as [Hx Hnd].
    destruct (Hin x) as [v Hv]; [set_solver|].
    rewrite (Hbody x m v) by set_solver. cbn [mbind result_bind].
    destruct (IH (<[x := g x v]> m)) as (m' & Hrun & Hm').
    + intros k m0 v0 Hk. apply Hbody. set_solver.
    + done.
    + intros k Hk. destruct (decide (k = x)) as [->|Hne]; [done|].
      rewrite lookup_insert_ne by done. apply Hin. set_solver.
    + exists m'. split; [done|]. intros k. rewrite Hm'.
      destruct (decide (k ∈ ks)) as [Hk|Hk].
      * rewrite decide_True by set_solver.
        rewrite lookup_insert_ne; [done|]. intros ->. done.
      * destruct (decide (k = x)) as [->|Hne].
        -- rewrite lookup_insert_eq, decide_True by set_solver. by rewrite Hv.
        -- rewrite lookup_insert_ne by done.
           rewrite decide_False; [done|]. by intros [?|?]%elem_of_cons.
Qed.

(** ** transition_model *)

Lemma effective_links_pos corpus page ls :
  corpus !! page = Some ls → (0 < size (effective_links corpus ls))%nat.
Proof.
  intros H. unfold effective_links. case_bool_decide as E.
  - rewrite size_dom. eapply size_pos_elem, elem_of_dom_2, H.
  - destruct (decide (size ls = 0%nat)) as [E'%size_empty_iff|]; [|lia].
    by apply leibniz_equiv in E'.
Qed.

Lemma effective_links_sub corpus page ls :
  valid_corpus corpus → corpus !! page = Some ls →
  effective_links corpus ls ⊆ dom corpus.
Proof.
  intros Hv H. unfold effective_links. case_bool_decide; [done|].
  apply (Hv page ls H).
Qed.

Lemma transition_model_lookup corpus page d ls :
  corpus !! page = Some ls →
  ∃ pd, transition_model corpus page d = Ok pd
        ∧ dom pd = dom corpus
        ∧ ∀ k, pd !! k = if decide (k ∈ dom corpus)
                         then Some (tm_value corpus d (effective_links corpus ls) k)
                         else None.
Proof.
  intros Hls. unfold transition_model, getitem. rewrite Hls. simpl.
  fold (effective_links corpus ls).
  set (links := effective_links corpus ls).
  set (pd0 := foldl _ _ _).
  assert (HN : (0 < size corpus)%nat) by (eapply size_pos_elem, elem_of_dom_2, Hls).
  assert (HL : (0 < size links)%nat) by (eapply effective_links_pos, Hls).
  assert (Hdom0 : dom pd0 = dom corpus) by apply zero_fill_dom.
  destruct (for_each_assign (λ k _, tm_value corpus d links k)
    (λ web_page pd,
       base ← pydiv (1 - d) (Qnat (size corpus));
       let pd1 := <[web_page := base]> pd in
       if bool_decide (web_page ∈ links) then
         share ← pydiv d (Qnat (size links));
         cur ← getitem pd1 web_page;
         Ok (<[web_page := cur + share]> pd1)
       else Ok pd1) (keys pd0) pd0) as (pd & Hrun & Hpd).
  - intros k m v _ _. rewrite !pydiv_ok by done. simpl. unfold tm_value.
    case_bool_decide as Hk.
    + unfold getitem. rewrite lookup_insert_eq. simpl.
      rewrite insert_insert_eq.
      by rewrite decide_True.
    + by rewrite decide_False.
  - apply NoDup_keys.
  - intros k Hk%elem_of_keys. by apply elem_of_dom.
  - exists pd. split; [exact Hrun|].
    assert (Hl : ∀ k, pd !! k = if decide (k ∈ dom corpus)
                         then Some (tm_value corpus d links k) else None).
    { intros k. rewrite Hpd. rewrite <- Hdom0.
      destruct (decide (k ∈ keys pd0)) as [Hk|Hk]; rewrite elem_of_keys in Hk.
      - rewrite decide_True by done. apply elem_of_dom in Hk as [v ->]. done.
      - rewrite decide_False by done. by apply not_elem_of_dom. }
    split; [|exact Hl].
    apply set_eq. intros k. rewrite elem_of_dom, Hl.
    destruct (decide (k ∈ dom corpus)); [|split; [by intros [? ?]|done]].
    split; [done|]. by eexists.
Qed.

Lemma tm_value_split corpus d links k :
  tm_value corpus d links k
  == (1 - d) / Qnat (size corpus)
     + (if decide (k ∈ links) then d / Qnat (size links) else 0).
Proof. unfold tm_value. destruct (decide (k ∈ links)); ring. Qed.

Lemma tm_value_sum corpus d links :
  (0 < size corpus)%nat → (0 < size links)%nat → links ⊆ dom corpus →
  sumQ (tm_value corpus d links) (keys corpus) == 1.
Proof.
  intros HN HL Hsub.
  rewrite (sumQ_ext _ _ _ (λ k _, tm_value_split corpus d links k)).
  rewrite sumQ_plus, sumQ_const, length_keys.
  rewrite (sumQ_indicator (.∈ links)), keys_filter_size by done.
  pose proof (Qnat_pos _ HN). pose proof (Qnat_pos _ HL).
  field. split; lra.
Qed.



(** C3: from a dangling page, [transition_model] gives every page of the
    corpus, the dangling page included, the probability
    [(1-d)/N + d/N = 1/N]. *)
Theorem transition_model_dangling corpus page d :
  corpus !! page = Some ∅ →
  0 < d → d < 1 →
  ∃ pd, transition_model corpus page d = Ok pd
    ∧ dom pd = dom corpus
    ∧ page ∈ dom pd
    ∧ ∀ k, k ∈ dom corpus →
        ∃ v, pd !! k = Some v
             ∧ v == (1 - d) / Qnat (size corpus) + d / Qnat (size corpus)
             ∧ v == 1 / Qnat (size corpus).
Proof.
  intros Hls _ _.
  destruct (transition_model_lookup corpus page d ∅ Hls) as (pd & Hrun & Hdom & Hpd).
  assert (HN : (0 < size corpus)%nat) by (eapply size_pos_elem, elem_of_dom_2, Hls).
  exists pd. split; [done|]. split; [done|]. split.
  { rewrite Hdom. by eapply elem_of_dom_2. }
  intros k Hk. eexists. split.
  - rewrite Hpd. by rewrite decide_True.
  - unfold tm_value, effective_links. rewrite bool_decide_eq_true_2 by done.
    rewrite decide_True by done. rewrite size_dom.
    split; [reflexivity|]. pose proof (Qnat_pos _ HN). field. lra.
Qed.

Lemma transition_model_dangling_witness :
  ∃ pd, transition_model ex3 "C" (85 # 100) = Ok pd
    ∧ dom pd = dom ex3
    ∧ "C" ∈ dom pd
    ∧ ∀ k, k ∈ dom ex3 →
        ∃ v, pd !! k = Some v
             ∧ v == (1 - (85 # 100)) / Qnat (size ex3) + (85 # 100) / Qnat (size ex3)
             ∧ v == 1 / Qnat (size ex3).
Proof.
  apply (transition_model_dangling ex3 "C" (85 # 100)); reflexivity.
Defined.

(** ** sample_pagerank *)

Lemma random_choice_ok draw (l : list Page) :
  l ≠ [] → ∃ p, random_choice draw l = Ok p ∧ p ∈ l.
Proof.
  intros Hl. unfold random_choice.
  assert (Hlen : (0 < length l)%nat) by (destruct l; [done|simpl; lia]).
  destruct (lookup_lt_is_Some_2 l (draw mod length l)%nat) as [p Hp].
  { apply Nat.mod_upper_bound. lia. }
  rewrite Hp. exists p. split; [done|]. by eapply list_elem_of_lookup_2.
Qed.

Lemma keys_nonempty {V} (d : gmap Page V) k : k ∈ dom d → keys d ≠ [].
Proof. intros Hk%elem_of_keys E. rewrite E in Hk. by apply not_elem_of_nil in Hk. Qed.

(** One step of the walk lands on a page of the corpus. *)
Lemma next_page_ok corpus d draw wp :
  wp ∈ dom corpus →
  ∃ pd nxt, transition_model corpus wp d = Ok pd
    ∧ random_choices draw (keys pd) (map_to_list pd).*2 = Ok nxt
    ∧ nxt ∈ dom corpus.
Proof.
  intros [ls Hls]%elem_of_dom.
  destruct (transition_model_lookup corpus wp d ls Hls) as (pd & Hrun & Hdom & _).
  destruct (random_choice_ok draw (keys pd)) as (nxt & Hnxt & Hin).
  { apply (keys_nonempty pd wp). rewrite Hdom. by eapply elem_of_dom_2. }
  exists pd, nxt. split; [done|]. split; [done|].
  by rewrite <- Hdom, <- elem_of_keys.
Qed.

Lemma visits_cons p x vs :
  visits p (x :: vs) = ((if decide (x = p) then 1 else 0) + visits p vs)%nat.
Proof. unfold visits. rewrite filter_cons. by destruct (decide (x = p)). Qed.

Lemma sum_list_fmap_cons (f : Page → nat) k ks :
  sum_list (f <$> k :: ks) = (f k + sum_list (f <$> ks))%nat.
Proof. reflexivity. Qed.

Lemma sum_list_indicator_notin (x : Page) (ks : list Page) :
  x ∉ ks →
  sum_list ((λ p, if decide (x = p) then 1%nat else 0%nat) <$> ks) = 0%nat.
Proof.
  induction ks as [|k ks IH]; intros Hx; [done|].
  apply not_elem_of_cons in Hx as [Hne Hx].
  rewrite sum_list_fmap_cons, IH by done. by rewrite decide_False.
Qed.

Lemma sum_list_indicator (x : Page) (ks : list Page) :
  NoDup ks → x ∈ ks →
  sum_list ((λ p, if decide (x = p) then 1%nat else 0%nat) <$> ks) = 1%nat.
Proof.
  induction 1 as [|k ks Hk Hnd IH]; intros Hx; [by apply not_elem_of_nil in Hx|].
  rewrite sum_list_fmap_cons.
  destruct (decide (x = k)) as [->|Hne].
  - by rewrite sum_list_indicator_notin.
  - apply elem_of_cons in Hx as [?|Hx]; [done|]. by rewrite IH.
Qed.

(** Exactly one counter is raised per step: the counts total the number
    of steps. *)
Lemma visits_total (ks vs : list Page) :
  NoDup ks → (∀ x, x ∈ vs → x ∈ ks) →
  sum_list ((λ p, visits p vs) <$> ks) = length vs.
Proof.
  intros Hnd. induction vs as [|x vs IH]; intros Hin.
  - clear. induction ks as [|k ks IHk]; [done|].
    by rewrite sum_list_fmap_cons, IHk.
  - transitivity
      (sum_list ((λ p, if decide (x = p) then 1%nat else 0%nat) <$> ks)
       + sum_list ((λ p, visits p vs) <$> ks))%nat.
    + clear. induction ks as [|k ks IHk]; [done|].
      rewrite !sum_list_fmap_cons, IHk, visits_cons. lia.
    + rewrite sum_list_indicator by (done || apply Hin; by left).
      rewrite IH by (intros y Hy; apply Hin; by right). done.
Qed.

Lemma sumQ_Qnat (f : Page → nat) (ks : list Page) :
  sumQ (λ p, Qnat (f p)) ks == Qnat (sum_list (f <$> ks)).
Proof.
  induction ks as [|k ks IH]; [reflexivity|].
  rewrite sumQ_cons, IH, sum_list_fmap_cons.
  unfold Qnat. rewrite Nat2Z.inj_add, inject_Z_plus. reflexivity.
Qed.

Lemma sample_step_ok rng corpus d i (pr : gmap Page Q) wp c pd nxt :
  pr !! wp = Some c →
  transition_model corpus wp d = Ok pd →
  random_choices (rng (S i)) (keys pd) (map_to_list pd).*2 = Ok nxt →
  sample_step rng corpus d i (pr, wp) = Ok (<[wp := c + 1]> pr, nxt).
Proof.
  intros Hc Hpd Hnxt. unfold sample_step, getitem.
  rewrite Hc. simpl. rewrite Hpd. simpl. by rewrite Hnxt.
Qed.

Lemma sample_loop rng corpus d n : ∀ i pr wp,
  wp ∈ dom corpus → dom pr = dom corpus →
  ∃ visited pr' wp',
    walk rng corpus d i n wp = Ok visited
    ∧ for_each (seq i n) (pr, wp) (sample_step rng corpus d) = Ok (pr', wp')
    ∧ length visited = n
    ∧ (∀ p, p ∈ visited → p ∈ dom corpus)
    ∧ dom pr' = dom corpus
    ∧ ∀ k c, pr !! k = Some c →
        ∃ c', pr' !! k = Some c' ∧ c' == c + Qnat (visits k visited).
Proof.
  induction n as [|n IH]; intros i pr wp Hwp Hdom.
  - exists [], pr, wp. repeat split; try done.
    + intros p Hp. by apply not_elem_of_nil in Hp.
    + intros k c Hc. exists c. split; [done|]. unfold visits, Qnat. simpl. ring.
  - assert (Hc : is_Some (pr !! wp)) by (apply elem_of_dom; by rewrite Hdom).
    destruct Hc as [c Hc].
    destruct (next_page_ok corpus d (rng (S i)) wp Hwp) as (pd & nxt & Hpd & Hnxt & Hin).
    destruct (IH (S i) (<[wp := c + 1]> pr) nxt Hin) as
      (rest & pr' & wp' & Hwalk & Hloop & Hlen & Hvis & Hdom' & Hcnt).
    { rewrite dom_insert_L, Hdom. apply subseteq_union_1_L.
      by apply singleton_subseteq_l. }
    exists (wp :: rest), pr', wp'.
    split. { cbn [walk]. rewrite Hpd. simpl. rewrite Hnxt. simpl. by rewrite Hwalk. }
    split. { cbn [seq for_each].
             rewrite (sample_step_ok rng corpus d i pr wp c pd nxt) by done.
             exact Hloop. }
    split. { simpl. by rewrite Hlen. }
    split. { intros p [->|Hp]%elem_of_cons; [done|by apply Hvis]. }
    split; [done|].
    intros k c0 Hk. rewrite visits_cons.
    destruct (decide (wp = k)) as [->|Hne].
    + destruct (Hcnt k (c + 1)) as (c' & Hc' & Hq); [by rewrite lookup_insert_eq|].
      exists c'. split; [done|]. rewrite Hq.
      assert (c0 = c) as -> by congruence.
      change (1 + visits k rest)%nat with (S (visits k rest)). rewrite Qnat_S. ring.
    + destruct (Hcnt k c0) as (c' & Hc' & Hq); [by rewrite lookup_insert_ne|].
      exists c'. split; [done|]. by rewrite Hq.
Qed.

(** C7, amended: on a non-empty corpus and for [n >= 1], whatever the
    draws, [sample_pagerank] returns for every page of the corpus its
    number of visits over the [n] steps of the walk, divided by [n]; the
    counts total [n], and the returned quotients, taken as exact
    rationals, sum to 1. *)
Theorem sample_pagerank_frequencies rng corpus d n :
  corpus ≠ ∅ →
  0 < d → d < 1 →
  (1 ≤ n)%nat →
  ∃ start visited r,
    random_choice (rng 0%nat) (keys corpus) = Ok start
    ∧ walk rng corpus d 0 n start = Ok visited
    ∧ length visited = n
    ∧ sample_pagerank rng corpus d n = Ok r
    ∧ dom r = dom corpus
    ∧ (∀ p, p ∈ dom corpus →
         ∃ v, r !! p = Some v ∧ v == Qnat (visits p visited) / Qnat n)
    ∧ sum_list ((λ p, visits p visited) <$> keys corpus) = n
    ∧ dict_sum r == 1.
Proof.
  intros Hne _ _ Hn.
  destruct (map_choose corpus Hne) as (k0 & ls0 & Hk0).
  destruct (random_choice_ok (rng 0%nat) (keys corpus)) as (start & Hstart & Hin).
  { eapply keys_nonempty, elem_of_dom_2, Hk0. }
  apply elem_of_keys in Hin.
  set (pr0 := foldl (λ pr web_page, <[web_page := 0]> pr) (∅ : gmap Page Q) (keys corpus)).
  assert (Hdom0 : dom pr0 = dom corpus) by apply zero_fill_dom.
  destruct (sample_loop rng corpus d n 0 pr0 start Hin Hdom0) as
    (visited & pr' & wp' & Hwalk & Hloop & Hlen & Hvis & Hdom' & Hcnt).
  destruct (for_each_assign (λ _ c, c / Qnat n)
    (λ page pr, count ← getitem pr page; v ← pydiv count (Qnat n);
                Ok (<[page := v]> pr)) (keys pr') pr') as (r & Hrun & Hr).
  { intros k m v _ Hv. unfold getitem. rewrite Hv. simpl.
    rewrite pydiv_ok by lia. done. }
  { apply NoDup_keys. }
  { intros k Hk%elem_of_keys. by apply elem_of_dom. }
  assert (Hval : ∀ p, p ∈ dom corpus →
            ∃ v, r !! p = Some v ∧ v == Qnat (visits p visited) / Qnat n).
  { intros p Hp. destruct (Hcnt p 0) as (c' & Hc' & Hq).
    { unfold pr0. rewrite zero_fill_lookup, decide_True; [done|].
      by apply elem_of_keys. }
    exists (c' / Qnat n). split.
    - rewrite Hr, decide_True, Hc'; [done|]. apply elem_of_keys. by rewrite Hdom'.
    - rewrite Hq. pose proof (Qnat_pos n ltac:(lia)). field. lra. }
  assert (Hdomr : dom r = dom corpus).
  { rewrite <- Hdom'. apply set_eq. intros k. rewrite !elem_of_dom, Hr.
    destruct (decide (k ∈ keys pr')) as [Hk|Hk]; [|done].
    apply elem_of_keys, elem_of_dom in Hk as [c ->]. split; by eexists. }
  assert (Htot : sum_list ((λ p, visits p visited) <$> keys corpus) = n).
  { rewrite visits_total; [done|apply NoDup_keys|].
    intros x Hx. by apply elem_of_keys, Hvis. }
  exists start, visited, r. unfold sample_pagerank. fold pr0.
  rewrite Hstart. simpl. rewrite Hloop. simpl.
  repeat (split; [done|]).
  rewrite (dict_sum_fun r (λ p, Qnat (visits p visited) / Qnat n)).
  - rewrite (sumQ_perm _ _ (keys corpus)) by (by apply keys_perm).
    rewrite (sumQ_ext _ (λ p, / Qnat n * Qnat (visits p visited)))
      by (intros; unfold Qdiv; ring).
    rewrite sumQ_scal, sumQ_Qnat, Htot.
    pose proof (Qnat_pos n ltac:(lia)). field. lra.
  - intros k v Hv. destruct (Hval k) as (v' & Hv' & Hq).
    { rewrite <- Hdomr. by eapply elem_of_dom_2. }
    congruence.
Qed.

Lemma sample_pagerank_frequencies_witness :
  ∃ start visited r,
    random_choice (rng7 0%nat) (keys ex3) = Ok start
    ∧ walk rng7 ex3 (85 # 100) 0 10 start = Ok visited
    ∧ length visited = 10%nat
    ∧ sample_pagerank rng7 ex3 (85 # 100) 10 = Ok r
    ∧ dom r = dom ex3
    ∧ (∀ p, p ∈ dom ex3 →
         ∃ v, r !! p = Some v ∧ v == Qnat (visits p visited) / Qnat 10)
    ∧ sum_list ((λ p, visits p visited) <$> keys ex3) = 10%nat
    ∧ dict_sum r == 1.
Proof.
  apply (sample_pagerank_frequencies rng7 ex3 (85 # 100) 10).
  - apply (bool_decide_unpack _). vm_compute. exact I.
  - reflexivity.
  - reflexivity.
  - lia.
Defined.

(** C7 as stated fails on "exactly": in binary64 the quotients are
    rounded.  With damping 0.85 and [n = 6] on a corpus of three pages,
    a walk that visits "A" once, "B" four times and "C" once returns the
    doubles 1/6, 4/6 and 1/6, whose sum in dict order is
    0.9999999999999999 and not 1. *)
Lemma sample_pagerank_binary64_sum :
  Binary64.ex3_ordered ≠ []
  ∧ PrimFloat.ltb PrimFloat.zero Binary64.damping_085 = true
  ∧ PrimFloat.ltb Binary64.damping_085 Binary64.one = true
  ∧ Binary64.sample_pagerank 0 Binary64.random_141 Binary64.ex3_ordered
      Binary64.damping_085 6 = Ok Binary64.sixths_141
  ∧ Binary64.dict_sum Binary64.sixths_141 = Binary64.below_one
  ∧ PrimFloat.eqb (Binary64.dict_sum Binary64.sixths_141) Binary64.one = false.
Proof.
  split; [done|]. repeat split; vm_compute; reflexivity.
Qed.

(** C9, amended: with [n = 0] on a non-empty corpus, [sample_pagerank]
    returns no result: the final division of the counters by [n] raises
    [ZeroDivisionError]. *)
Theorem sample_pagerank_zero_samples rng corpus d :
  corpus ≠ ∅ →
  0 < d → d < 1 →
  sample_pagerank rng corpus d 0 = Raise ZeroDivisionError.
Proof.
  intros Hne _ _.
  destruct (map_choose corpus Hne) as (k0 & ls0 & Hk0).
  destruct (random_choice_ok (rng 0%nat) (keys corpus)) as (start & Hstart & Hin).
  { eapply keys_nonempty, elem_of_dom_2, Hk0. }
  unfold sample_pagerank. rewrite Hstart. cbn [seq for_each mbind result_bind fst].
  set (pr0 := foldl _ _ _).
  assert (Hdom0 : dom pr0 = dom corpus) by apply zero_fill_dom.
  destruct (keys pr0) as [|k ks] eqn:Hks.
  { exfalso. eapply (keys_nonempty pr0 k0); [|done].
    rewrite Hdom0. by eapply elem_of_dom_2. }
  assert (Hk : pr0 !! k = Some 0).
  { unfold pr0. rewrite zero_fill_lookup, decide_True; [done|].
    rewrite elem_of_keys, <- Hdom0, <- elem_of_keys, Hks. by left. }
  cbn [for_each]. unfold getitem. rewrite Hk. reflexivity.
Qed.

(** C9 as stated fails on the kind of the error: the arguments are not
    validated, and what reaches the caller is the [ZeroDivisionError] of
    the last loop, not an invalid-argument error. *)
Lemma sample_pagerank_zero_not_invalid_argument :
  sample_pagerank rng7 ex3 (85 # 100) 0 = Raise ZeroDivisionError
  ∧ sample_pagerank rng7 ex3 (85 # 100) 0 ≠ Raise ValueError.
Proof. split; [reflexivity|]. intros H. vm_compute in H. discriminate H. Qed.

Lemma sample_pagerank_zero_samples_witness :
  sample_pagerank rng7 ex3 (85 # 100) 0 = Raise ZeroDivisionError.
Proof.
  apply (sample_pagerank_zero_samples rng7 ex3 (85 # 100)).
  - apply (bool_decide_unpack _). vm_compute. exact I.
  - reflexivity.
  - reflexivity.
Defined.

(** ** The store monad *)

Lemma bind_ok {A B} (m : M A) (f : A → M B) σ a σ' :
  m σ = Ok (a, σ') → (m ≫= f) σ = f a σ'.
Proof. intros H. unfold mbind, M_bind. by rewrite H. Qed.

Lemma bind_raise {A B} (m : M A) (f : A → M B) σ e :
  m σ = Raise e → (m ≫= f) σ = Raise e.
Proof. intros H. unfold mbind, M_bind. by rewrite H. Qed.

Lemma ret_ok {A} (a : A) (σ : Store) : (mret a : M A) σ = Ok (a, σ).
Proof. reflexivity. Qed.

Lemma lift_ok {A} (a : A) (σ : Store) : lift (Ok a) σ = Ok (a, σ).
Proof. reflexivity. Qed.

Lemma dict_getitem_ok (σ : Store) l (dct : gmap Page Q) k v :
  σ !! l = Some dct → dct !! k = Some v → dict_getitem l k σ = Ok (v, σ).
Proof. intros Hl Hk. unfold dict_getitem, getitem. by rewrite Hl, Hk. Qed.

Lemma dict_setitem_ok (σ : Store) l (dct : gmap Page Q) k v :
  σ !! l = Some dct → dict_setitem l k v σ = Ok ((), <[l := <[k := v]> dct]> σ).
Proof. intros Hl. unfold dict_setitem. by rewrite Hl. Qed.

Lemma dict_copy_ok (σ : Store) l (dct : gmap Page Q) :
  σ !! l = Some dct →
  dict_copy l σ = Ok (fresh (dom σ), <[fresh (dom σ) := dct]> σ).
Proof. intros Hl. unfold dict_copy. by rewrite Hl. Qed.

Lemma fresh_loc_None (σ : Store) : σ !! fresh (dom σ) = None.
Proof. apply not_elem_of_dom, is_fresh. Qed.

Lemma fresh_loc_ne (σ : Store) l (dct : gmap Page Q) :
  σ !! l = Some dct → fresh (dom σ) ≠ l.
Proof. intros Hl E. rewrite <- E, fresh_loc_None in Hl. done. Qed.

(** ** One relaxation pass *)

Section relax.
Variable corpus : gmap Page (gset Page).
Variable d : Q.

Lemma links_of_lookup q ls : corpus !! q = Some ls → links_of corpus q = ls.
Proof. intros H. unfold links_of. by rewrite H. Qed.

Lemma rank_of_lookup (ranks : gmap Page Q) q v :
  ranks !! q = Some v → rank_of ranks q = v.
Proof. intros H. unfold rank_of. by rewrite H. Qed.

(** The inner loop only reads the store and adds the contribution of
    every page to [total]. *)
Lemma relax_inner_ok (σ : Store) pr (old : gmap Page Q) page :
  σ !! pr = Some old → dom old = dom corpus →
  ∀ ks total, (∀ q, q ∈ ks → q ∈ dom corpus) →
  ∃ v,
    for_st ks total (λ working_page total,
      ls ← lift (getitem corpus working_page);
      total ← (if bool_decide (page ∈ ls) then
                 r ← dict_getitem pr working_page;
                 q ← lift (pydiv r (Qnat (size ls)));
                 mret (total + d * q)
               else mret total);
      if bool_decide (ls = ∅) then
        r ← dict_getitem pr working_page;
        q ← lift (pydiv r (Qnat (size corpus)));
        mret (total + d * q)
      else mret total) σ = Ok (v, σ)
    ∧ v == total
         + sumQ (λ q,
             (if decide (page ∈ links_of corpus q)
              then d * (rank_of old q / Qnat (size (links_of corpus q))) else 0)
             + (if decide (links_of corpus q = ∅)
                then d * (rank_of old q / Qnat (size corpus)) else 0)) ks.
Proof.
  intros Hpr Hdom. induction ks as [|q ks IH]; intros total Hks.
  - exists total. split; [done|]. rewrite sumQ_nil. ring.
  - assert (Hq : q ∈ dom corpus) by (apply Hks; by left).
    destruct (proj1 (elem_of_dom _ _) Hq) as [ls Hls].
    assert (Hr : is_Some (old !! q)) by (apply elem_of_dom; by rewrite Hdom).
    destruct Hr as [r Hr].
    assert (HN : (0 < size corpus)%nat) by (by eapply size_pos_elem).
    cbn [for_st].
    set (t1 := if decide (page ∈ ls) then total + d * (r / Qnat (size ls)) else total).
    set (t2 := if decide (ls = ∅) then t1 + d * (r / Qnat (size corpus)) else t1).
    destruct (IH t2) as (v & Hrun & Hv); [intros; apply Hks; by right|].
    exists v. split.
    + erewrite bind_ok; [exact Hrun|].
      unfold getitem. rewrite Hls. erewrite bind_ok by apply lift_ok.
      erewrite (bind_ok _ _ σ t1 σ).
      * unfold t2. case_bool_decide; [|by rewrite decide_False].
        rewrite decide_True by done.
        erewrite bind_ok by (by eapply dict_getitem_ok).
        rewrite pydiv_ok by done. by erewrite bind_ok by apply lift_ok.
      * unfold t1. case_bool_decide as Hp; [|by rewrite decide_False].
        rewrite decide_True by done.
        erewrite bind_ok by (by eapply dict_getitem_ok).
        rewrite pydiv_ok by (by eapply gset_size_pos_elem).
        by erewrite bind_ok by apply lift_ok.
    + rewrite Hv, sumQ_cons.
      rewrite (links_of_lookup q ls Hls), (rank_of_lookup old q r Hr).
      unfold t2, t1. destruct (decide (page ∈ ls)), (decide (ls = ∅)); ring.
Qed.

Lemma relax_page_ok (σ : Store) pr (old : gmap Page Q) page :
  σ !! pr = Some old → dom old = dom corpus → (0 < size corpus)%nat →
  ∃ v, relax_page corpus d pr page σ = Ok (v, σ)
       ∧ v == update corpus d (rank_of old) page.
Proof.
  intros Hpr Hdom HN. unfold relax_page.
  destruct (relax_inner_ok σ pr old page Hpr Hdom (keys corpus)
              ((1 - d) / Qnat (size corpus))) as (v & Hrun & Hv).
  { intros q. by rewrite elem_of_keys. }
  exists v. split; [|exact Hv].
  rewrite pydiv_ok by done. erewrite bind_ok by apply lift_ok. exact Hrun.
Qed.

(** The outer loop writes [new_page_rank] only; [page_ranks], a
    different object, keeps the ranks of the previous pass throughout. *)
Lemma relax_outer_ok pr npr (old : gmap Page Q) :
  pr ≠ npr → dom old = dom corpus →
  ∀ ks (σ : Store) (new : gmap Page Q),
    σ !! pr = Some old → σ !! npr = Some new →
    (∀ p, p ∈ ks → p ∈ dom corpus) →
    ∃ new',
      for_st ks () (λ page _,
        total ← relax_page corpus d pr page;
        dict_setitem npr page total) σ = Ok ((), <[npr := new']> σ)
      ∧ dom new' = dom new ∪ list_to_set ks
      ∧ (∀ p, p ∉ ks → new' !! p = new !! p)
      ∧ (∀ p, p ∈ ks →
           ∃ v, new' !! p = Some v ∧ v == update corpus d (rank_of old) p).
Proof.
  intros Hne Hdom. induction ks as [|p ks IH]; intros σ new Hpr Hnpr Hks.
  - exists new. split; [|split; [|split]].
    + cbn [for_st]. by rewrite insert_id.
    + cbn [list_to_set foldr]. by rewrite union_empty_r_L.
    + done.
    + intros p Hp. by apply not_elem_of_nil in Hp.
  - assert (Hp : p ∈ dom corpus) by (apply Hks; by left).
    assert (HN : (0 < size corpus)%nat).
    { apply elem_of_dom in Hp as [? ?]. by eapply size_pos_elem, elem_of_dom_2. }
    destruct (relax_page_ok σ pr old p Hpr Hdom HN) as (v & Hv & Hq).
    destruct (IH (<[npr := <[p := v]> new]> σ) (<[p := v]> new))
      as (new' & Hrun & Hd & Hout & Hin).
    { by rewrite lookup_insert_ne. }
    { by rewrite lookup_insert_eq. }
    { intros; apply Hks; by right. }
    exists new'. split; [|split; [|split]].
    + cbn [for_st]. erewrite bind_ok; [|].
      2:{ erewrite bind_ok by exact Hv. by eapply dict_setitem_ok. }
      rewrite Hrun. by rewrite insert_insert_eq.
    + rewrite Hd, dom_insert_L. cbn [list_to_set foldr].
      by rewrite (comm_L (∪) {[p]}), (assoc_L (∪)).
    + intros x Hx. apply not_elem_of_cons in Hx as [Hxp Hx].
      rewrite Hout by done. by rewrite lookup_insert_ne.
    + intros x Hx. destruct (decide (x ∈ ks)) as [Hxk|Hxk]; [by apply Hin|].
      apply elem_of_cons in Hx as [->|?]; [|done].
      exists v. split; [|done]. rewrite Hout by done. by rewrite lookup_insert_eq.
Qed.

Lemma relax_pass_ok (σ : Store) pr npr (old new : gmap Page Q) :
  pr ≠ npr →
  σ !! pr = Some old → σ !! npr = Some new →
  dom old = dom corpus → dom new = dom corpus →
  ∃ new',
    relax_pass corpus d pr npr σ = Ok ((), <[npr := new']> σ)
    ∧ holds_ranks corpus new' (update corpus d (rank_of old)).
Proof.
  intros Hne Hpr Hnpr Hdo Hdn.
  destruct (relax_outer_ok pr npr old Hne Hdo (keys corpus) σ new Hpr Hnpr)
    as (new' & Hrun & Hd & _ & Hin).
  { intros p. by rewrite elem_of_keys. }
  assert (Hdom' : dom new' = dom corpus).
  { rewrite Hd, Hdn. apply set_eq. intros p.
    rewrite elem_of_union, elem_of_list_to_set, elem_of_keys. tauto. }
  exists new'. split; [exact Hrun|]. split; [exact Hdom'|].
  intros p v Hv. destruct (Hin p) as (v' & Hv' & Hq); [|congruence].
  apply elem_of_keys. rewrite <- Hdom'. by eapply elem_of_dom_2.
Qed.
End relax.

(** ** Set-up, convergence test and the loop *)

Section loop.
Variable corpus : gmap Page (gset Page).
Variable d : Q.

Lemma update_ext (r r' : Page → Q) p :
  (∀ q, q ∈ dom corpus → r q == r' q) →
  update corpus d r p == update corpus d r' p.
Proof.
  intros H. unfold update. apply Qplus_comp; [reflexivity|].
  apply sumQ_ext. intros q Hq%elem_of_keys. pose proof (H q Hq) as E.
  destruct (decide (p ∈ links_of corpus q)), (decide (links_of corpus q = ∅));
    rewrite ?E; reflexivity.
Qed.

Lemma holds_ranks_rank_of (ranks : gmap Page Q) r p :
  holds_ranks corpus ranks r → p ∈ dom corpus → rank_of ranks p == r p.
Proof.
  intros [Hdom Hv] Hp. rewrite <- Hdom in Hp.
  apply elem_of_dom in Hp as [v Hp]. rewrite (rank_of_lookup _ _ _ Hp).
  by apply Hv.
Qed.

Lemma holds_ranks_ext (ranks : gmap Page Q) r r' :
  holds_ranks corpus ranks r → (∀ p, p ∈ dom corpus → r p == r' p) →
  holds_ranks corpus ranks r'.
Proof.
  intros [Hdom Hv] H. split; [done|]. intros p v Hp.
  rewrite (Hv p v Hp). apply H. rewrite <- Hdom. by eapply elem_of_dom_2.
Qed.

(** Lines 125-126. *)
Lemma setup_fill_ok l : ∀ ks (σ : Store) (dct : gmap Page Q),
  σ !! l = Some dct → (∀ p, p ∈ ks → p ∈ dom corpus) →
  ∃ dct',
    for_st ks () (λ page _,
      v ← lift (pydiv 1 (Qnat (size corpus)));
      dict_setitem l page v) σ = Ok ((), <[l := dct']> σ)
    ∧ ∀ p, dct' !! p = if decide (p ∈ ks)
                       then Some (1 / Qnat (size corpus)) else dct !! p.
Proof.
  induction ks as [|p ks IH]; intros σ dct Hl Hks.
  - exists dct. split; [cbn [for_st]; by rewrite insert_id|].
    intros p. by rewrite decide_False by apply not_elem_of_nil.
  - assert (HN : (0 < size corpus)%nat).
    { apply (size_pos_elem corpus p), Hks. by left. }
    destruct (IH (<[l := <[p := 1 / Qnat (size corpus)]> dct]> σ)
                (<[p := 1 / Qnat (size corpus)]> dct))
      as (dct' & Hrun & Hlook).
    { by rewrite lookup_insert_eq. }
    { intros; apply Hks; by right. }
    exists dct'. split.
    + cbn [for_st]. erewrite bind_ok.
      2:{ rewrite pydiv_ok by done. erewrite bind_ok by apply lift_ok.
          by eapply dict_setitem_ok. }
      rewrite Hrun. by rewrite insert_insert_eq.
    + intros x. rewrite Hlook.
      destruct (decide (x ∈ ks)) as [Hx|Hx].
      * rewrite decide_True; [done|by right].
      * destruct (decide (x = p)) as [->|Hne].
        -- rewrite lookup_insert_eq. rewrite decide_True; [done|by left].
        -- rewrite lookup_insert_ne by done.
           rewrite decide_False; [done|]. by intros [?|?]%elem_of_cons.
Qed.

(** Lines 122-129: two different objects with the same contents,
    [1/N] for every page. *)
Lemma iterate_setup_ok (σ0 : Store) :
  ∃ pr npr σ init,
    iterate_setup corpus σ0 = Ok ((pr, npr), σ)
    ∧ pr ≠ npr
    ∧ σ !! pr = Some init ∧ σ !! npr = Some init
    ∧ holds_ranks corpus init (iterate_ranks corpus d 0).
Proof.
  set (pr := fresh (dom σ0)).
  destruct (setup_fill_ok pr (keys corpus) (<[pr := ∅]> σ0) ∅)
    as (init & Hfill & Hinit).
  { by rewrite lookup_insert_eq. }
  { intros p. by rewrite elem_of_keys. }
  set (σ1 := <[pr := init]> (<[pr := ∅]> σ0)) in *.
  assert (Hpr1 : σ1 !! pr = Some init) by apply lookup_insert_eq.
  exists pr, (fresh (dom σ1)), (<[fresh (dom σ1) := init]> σ1), init.
  split; [|split; [|split; [|split]]].
  - unfold iterate_setup. erewrite bind_ok by reflexivity.
    fold pr. erewrite bind_ok by exact Hfill.
    erewrite bind_ok by (by eapply dict_copy_ok). done.
  - intros E. symmetry in E. by eapply fresh_loc_ne in E.
  - rewrite lookup_insert_ne; [done|]. by eapply fresh_loc_ne.
  - by rewrite lookup_insert_eq.
  - split.
    + apply set_eq. intros p. rewrite elem_of_dom, Hinit, <- elem_of_keys.
      destruct (decide (p ∈ keys corpus)); [split; [done|by eexists]|].
      rewrite lookup_empty. split; [by intros [? ?]|done].
    + intros p v. rewrite Hinit. case_decide; [|by rewrite lookup_empty].
      intros [= <-]. reflexivity.
Qed.

(** Lines 147-151. *)
Lemma converged_from_ok (σ : Store) pr npr (old new : gmap Page Q) :
  σ !! pr = Some old → σ !! npr = Some new →
  ∀ ks, (∀ p, p ∈ ks → p ∈ dom old ∧ p ∈ dom new) →
  ∃ b, converged_from ks pr npr σ = Ok (b, σ)
       ∧ (b = true ↔
          ∀ p, p ∈ ks → Qabs (rank_of new p - rank_of old p) < threshold).
Proof.
  intros Hpr Hnpr. induction ks as [|p ks IH]; intros Hks.
  - exists true. split; [done|]. split; [|done].
    intros _ p Hp. by apply not_elem_of_nil in Hp.
  - destruct (Hks p) as [[b Hb]%elem_of_dom [a Ha]%elem_of_dom]; [by left|].
    cbn [converged_from].
    erewrite bind_ok by (by eapply dict_getitem_ok).
    erewrite bind_ok by (by eapply dict_getitem_ok).
    destruct (Qle_bool threshold (Qabs (a - b))) eqn:Hle.
    + exists false. split; [done|]. split; [done|]. intros H. exfalso.
      apply Qle_bool_iff in Hle.
      specialize (H p ltac:(by left)).
      rewrite (rank_of_lookup _ _ _ Ha), (rank_of_lookup _ _ _ Hb) in H. lra.
    + destruct IH as (b' & Hrun & Hb'); [intros; apply Hks; by right|].
      exists b'. split; [done|]. rewrite Hb'. split.
      * intros H x [->|Hx]%elem_of_cons; [|by apply H].
        rewrite (rank_of_lookup _ _ _ Ha), (rank_of_lookup _ _ _ Hb).
        apply Qnot_le_lt. intros Hc%Qle_bool_iff. congruence.
      * intros H x Hx. apply H. by right.
Qed.

Lemma check_converged_dicts (σ : Store) pr npr (old new : gmap Page Q) :
  σ !! pr = Some old → σ !! npr = Some new →
  dom old = dom corpus → dom new = dom corpus →
  ∃ b, check_converged pr npr σ = Ok (b, σ)
       ∧ (b = true ↔
          ∀ p, p ∈ dom corpus →
               Qabs (rank_of new p - rank_of old p) < threshold).
Proof.
  intros Hpr Hnpr Hdo Hdn.
  destruct (converged_from_ok σ pr npr old new Hpr Hnpr (keys old))
    as (b & Hrun & Hb).
  { intros p Hp%elem_of_keys. split; [done|]. by rewrite Hdn, <- Hdo. }
  exists b. split.
  - unfold check_converged. erewrite bind_ok; [exact Hrun|].
    unfold dict_keys. by rewrite Hpr.
  - rewrite Hb. split; intros H p Hp; apply H.
    + apply elem_of_keys. by rewrite Hdo.
    + apply elem_of_keys in Hp. by rewrite <- Hdo.
Qed.

Lemma check_converged_ok (σ : Store) pr npr (old new : gmap Page Q) r :
  σ !! pr = Some old → σ !! npr = Some new →
  holds_ranks corpus old r →
  holds_ranks corpus new (update corpus d r) →
  ∃ b, check_converged pr npr σ = Ok (b, σ)
       ∧ (b = true ↔ settled corpus d r).
Proof.
  intros Hpr Hnpr Hold Hnew.
  destruct (check_converged_dicts σ pr npr old new Hpr Hnpr)
    as (b & Hrun & Hb); [apply Hold|apply Hnew|].
  exists b. split; [done|]. rewrite Hb. unfold settled.
  split; intros H p Hp.
  - rewrite <- (holds_ranks_rank_of new _ p Hnew Hp).
    rewrite <- (holds_ranks_rank_of old _ p Hold Hp). by apply H.
  - rewrite (holds_ranks_rank_of new _ p Hnew Hp).
    rewrite (holds_ranks_rank_of old _ p Hold Hp). by apply H.
Qed.

(** One pass and its test, from a state of the loop. *)
Lemma pass_ok σ pr npr k :
  loop_inv corpus d σ pr npr k →
  ∃ (old new : gmap Page Q) b,
    σ !! pr = Some old
    ∧ holds_ranks corpus old (iterate_ranks corpus d k)
    ∧ relax_pass corpus d pr npr σ = Ok ((), <[npr := new]> σ)
    ∧ holds_ranks corpus new (iterate_ranks corpus d (S k))
    ∧ check_converged pr npr (<[npr := new]> σ) = Ok (b, <[npr := new]> σ)
    ∧ (b = true ↔ settled corpus d (iterate_ranks corpus d k)).
Proof.
  intros (Hne & old & new0 & Hpr & Hnpr & Hold & Hdn).
  destruct (relax_pass_ok corpus d σ pr npr old new0 Hne Hpr Hnpr)
    as (new & Hrun & Hnew); [apply Hold|done|].
  assert (Hnew' : holds_ranks corpus new (iterate_ranks corpus d (S k))).
  { eapply holds_ranks_ext; [exact Hnew|]. intros p Hp. cbn [iterate_ranks].
    apply update_ext. intros q Hq. by apply holds_ranks_rank_of. }
  destruct (check_converged_ok (<[npr := new]> σ) pr npr old new
              (iterate_ranks corpus d k)) as (b & Hb & Hiff); try done.
  { by rewrite lookup_insert_ne. }
  { by rewrite lookup_insert_eq. }
  exists old, new, b. done.
Qed.

(** After a failed test the copy is a new object holding the new ranks. *)
Lemma copy_inv σ pr npr (new : gmap Page Q) k :
  pr ≠ npr → is_Some (σ !! pr) →
  holds_ranks corpus new (iterate_ranks corpus d (S k)) →
  ∃ pr' σ',
    dict_copy npr (<[npr := new]> σ) = Ok (pr', σ')
    ∧ σ' !! pr' = Some new ∧ σ' !! npr = Some new
    ∧ loop_inv corpus d σ' pr' npr (S k).
Proof.
  intros Hne Hpr Hnew. set (σ1 := <[npr := new]> σ).
  assert (H1 : σ1 !! npr = Some new) by apply lookup_insert_eq.
  assert (Hf : fresh (dom σ1) ≠ npr) by (by eapply fresh_loc_ne).
  exists (fresh (dom σ1)), (<[fresh (dom σ1) := new]> σ1).
  split; [by apply dict_copy_ok|].
  split; [by rewrite lookup_insert_eq|].
  split; [by rewrite lookup_insert_ne|].
  split; [done|]. exists new, new.
  split; [by rewrite lookup_insert_eq|].
  split; [by rewrite lookup_insert_ne|].
  split; [done|]. apply Hnew.
Qed.

Lemma loop_entry_inv σ pr npr :
  loop_entry corpus d σ pr npr → ∃ k, loop_inv corpus d σ pr npr k.
Proof.
  induction 1 as [σ pr npr Hsetup|σ pr npr σ1 σ2 pr' _ [k IH] Hpass Hconv Hcopy].
  - destruct (iterate_setup_ok ∅) as (pr0 & npr0 & σ0 & init & Hrun & Hne & H1 & H2 & Hinit).
    rewrite Hsetup in Hrun. injection Hrun as -> -> ->.
    exists 0%nat. split; [done|]. exists init, init.
    split; [done|]. split; [done|]. split; [done|]. apply Hinit.
  - pose proof IH as (Hne & old0 & _ & Hpr0 & _).
    destruct (pass_ok σ pr npr k IH) as (old & new & b & Hpr & Hold & Hrun & Hnew & _).
    rewrite Hpass in Hrun. injection Hrun as ->.
    destruct (copy_inv σ pr npr new k) as (pr2 & σ' & Hc & _ & _ & Hinv);
      [done|by eexists|done|].
    rewrite Hcopy in Hc. injection Hc as -> ->.
    by exists (S k).
Qed.
End loop.

(** ** The whole loop *)

Section run.
Variable corpus : gmap Page (gset Page).
Variable d : Q.

Local Abbreviation ranks := (iterate_ranks corpus d).

Lemma settledb_spec r : settledb corpus d r = true ↔ settled corpus d r.
Proof.
  unfold settledb, settled. rewrite forallb_forall. split.
  - intros H p Hp. apply elem_of_keys, list_elem_of_In, H in Hp.
    apply negb_true_iff in Hp. apply Qnot_le_lt. intros Hc%Qle_bool_iff.
    congruence.
  - intros H p Hp%list_elem_of_In%elem_of_keys. apply negb_true_iff.
    apply not_true_is_false. intros Hc%Qle_bool_iff.
    specialize (H p Hp). lra.
Qed.

Lemma settled_dec r : {settled corpus d r} + {¬ settled corpus d r}.
Proof.
  destruct (settledb corpus d r) eqn:E.
  - left. by apply settledb_spec.
  - right. intros H%settledb_spec. congruence.
Qed.

(** If the test first passes on the ranks after [k + m] updates, the
    loop entered before pass [k + 1] leaves after [m + 1] passes and
    returns the [page_ranks] object of its last pass. *)
Lemma while_true_run : ∀ m k σ pr npr,
  loop_inv corpus d σ pr npr k →
  (∀ j, (k ≤ j < k + m)%nat → ¬ settled corpus d (ranks j)) →
  settled corpus d (ranks (k + m)) →
  ∃ l σ' (r new : gmap Page Q),
    (∀ fuel, (m < fuel)%nat →
       while_true corpus d fuel pr npr σ = Ok (Some l, σ'))
    ∧ l ≠ npr
    ∧ σ' !! l = Some r ∧ σ' !! npr = Some new
    ∧ holds_ranks corpus r (ranks (k + m))
    ∧ holds_ranks corpus new (ranks (S (k + m))).
Proof.
  induction m as [|m IH]; intros k σ pr npr Hinv Hnot Hset;
    pose proof Hinv as (Hne & _);
    destruct (pass_ok corpus d σ pr npr k Hinv)
      as (old & new & b & Hpr & Hold & Hpass & Hnew & Hconv & Hb).
  - rewrite Nat.add_0_r in *. apply Hb in Hset as ->.
    exists pr, (<[npr := new]> σ), old, new.
    split.
    { intros [|fuel] Hfuel; [lia|]. cbn [while_true].
      erewrite bind_ok by exact Hpass. by erewrite bind_ok by exact Hconv. }
    split; [done|].
    split; [by rewrite lookup_insert_ne|].
    split; [by rewrite lookup_insert_eq|]. done.
  - destruct b.
    { exfalso. apply (Hnot k); [lia|]. by apply Hb. }
    destruct (copy_inv corpus d σ pr npr new k)
      as (pr' & σ1 & Hcopy & _ & _ & Hinv'); [done|by eexists|done|].
    replace (k + S m)%nat with (S k + m)%nat in * by lia.
    destruct (IH (S k) σ1 pr' npr Hinv') as (l & σ' & r & new' & Hrun & Hrest);
      [intros j Hj; apply Hnot; lia|done|].
    exists l, σ', r, new'. split; [|exact Hrest].
    intros [|fuel] Hfuel; [lia|]. cbn [while_true].
    erewrite bind_ok by exact Hpass. erewrite bind_ok by exact Hconv.
    cbv beta iota. erewrite bind_ok by exact Hcopy. apply Hrun. lia.
Qed.

(** With too little fuel the loop is still running. *)
Lemma while_true_short : ∀ fuel k σ pr npr,
  loop_inv corpus d σ pr npr k →
  (∀ j, (k ≤ j < k + fuel)%nat → ¬ settled corpus d (ranks j)) →
  ∃ σ', while_true corpus d fuel pr npr σ = Ok (None, σ').
Proof.
  induction fuel as [|fuel IH]; intros k σ pr npr Hinv Hnot.
  - by exists σ.
  - pose proof Hinv as (Hne & _).
    destruct (pass_ok corpus d σ pr npr k Hinv)
      as (old & new & b & Hpr & Hold & Hpass & Hnew & Hconv & Hb).
    destruct b.
    { exfalso. apply (Hnot k); [lia|]. by apply Hb. }
    destruct (copy_inv corpus d σ pr npr new k)
      as (pr' & σ1 & Hcopy & _ & _ & Hinv'); [done|by eexists|done|].
    destruct (IH (S k) σ1 pr' npr Hinv') as (σ' & Hrun);
      [intros j Hj; apply Hnot; lia|].
    exists σ'. cbn [while_true].
    erewrite bind_ok by exact Hpass. erewrite bind_ok by exact Hconv.
    cbv beta iota. by erewrite bind_ok by exact Hcopy.
Qed.

(** The least index at which the test passes, below a known one. *)
Lemma first_settled_upto K :
  (∃ k, (k ≤ K)%nat ∧ settled corpus d (ranks k)
        ∧ ∀ j, (j < k)%nat → ¬ settled corpus d (ranks j))
  ∨ (∀ j, (j ≤ K)%nat → ¬ settled corpus d (ranks j)).
Proof.
  induction K as [|K [(k & Hk & Hs & Hmin)|Hnone]].
  - destruct (settled_dec (ranks 0)) as [Hs|Hs].
    + left. exists 0%nat. split; [done|]. split; [done|]. intros j Hj. lia.
    + right. intros j Hj. by replace j with 0%nat by lia.
  - left. exists k. split; [lia|done].
  - destruct (settled_dec (ranks (S K))) as [Hs|Hs].
    + left. exists (S K). split; [done|]. split; [done|].
      intros j Hj. apply Hnone. lia.
    + right. intros j Hj. destruct (decide (j = S K)) as [->|]; [done|].
      apply Hnone. lia.
Qed.

Lemma first_settled K :
  settled corpus d (ranks K) →
  ∃ k, (k ≤ K)%nat ∧ settled corpus d (ranks k)
       ∧ ∀ j, (j < k)%nat → ¬ settled corpus d (ranks j).
Proof.
  intros HK. destruct (first_settled_upto K) as [H|H]; [done|].
  by destruct (H K).
Qed.

Lemma iterate_pagerank_st_run k :
  settled corpus d (ranks k) →
  (∀ j, (j < k)%nat → ¬ settled corpus d (ranks j)) →
  ∃ pr npr σ0 l σ (r new : gmap Page Q),
    iterate_setup corpus ∅ = Ok ((pr, npr), σ0)
    ∧ (∀ fuel, (k < fuel)%nat →
         iterate_pagerank_st corpus d fuel ∅ = Ok (Some l, σ))
    ∧ l ≠ npr
    ∧ σ !! l = Some r ∧ σ !! npr = Some new
    ∧ holds_ranks corpus r (ranks k)
    ∧ holds_ranks corpus new (ranks (S k)).
Proof.
  intros Hset Hnot.
  destruct (iterate_setup_ok corpus d ∅)
    as (pr & npr & σ0 & init & Hsetup & Hne & Hpr & Hnpr & Hinit).
  assert (Hinv : loop_inv corpus d σ0 pr npr 0).
  { split; [done|]. exists init, init. repeat split; try done; apply Hinit. }
  destruct (while_true_run k 0 σ0 pr npr Hinv)
    as (l & σ & r & new & Hrun & Hrest);
    [intros j Hj; apply Hnot; lia|done|].
  exists pr, npr, σ0, l, σ, r, new. split; [done|]. split; [|exact Hrest].
  intros fuel Hfuel.
  unfold iterate_pagerank_st. erewrite bind_ok by exact Hsetup.
  by apply Hrun.
Qed.

Lemma iterate_pagerank_run k :
  settled corpus d (ranks k) →
  (∀ j, (j < k)%nat → ¬ settled corpus d (ranks j)) →
  ∃ r, (∀ fuel, (k < fuel)%nat →
          iterate_pagerank corpus d fuel = Ok (Some r))
       ∧ holds_ranks corpus r (ranks k).
Proof.
  intros Hset Hnot.
  destruct (iterate_pagerank_st_run k Hset Hnot)
    as (pr & npr & σ0 & l & σ & r & new & _ & Hrun & _ & Hr & _ & Hhr & _).
  exists r. split; [|done]. intros fuel Hfuel.
  unfold iterate_pagerank. by rewrite (Hrun fuel Hfuel), Hr.
Qed.

Lemma iterate_pagerank_short fuel :
  (∀ j, (j < fuel)%nat → ¬ settled corpus d (ranks j)) →
  iterate_pagerank corpus d fuel = Ok None.
Proof.
  intros Hnot.
  destruct (iterate_setup_ok corpus d ∅)
    as (pr & npr & σ0 & init & Hsetup & Hne & Hpr & Hnpr & Hinit).
  assert (Hinv : loop_inv corpus d σ0 pr npr 0).
  { split; [done|]. exists init, init. repeat split; try done; apply Hinit. }
  destruct (while_true_short fuel 0 σ0 pr npr Hinv) as (σ' & Hrun);
    [intros j Hj; apply Hnot; lia|].
  unfold iterate_pagerank, iterate_pagerank_st.
  erewrite bind_ok by exact Hsetup. simpl. by rewrite Hrun.
Qed.

(** Whatever the fuel, a returned dict holds the first iterate on which
    the test passes. *)
Lemma iterate_pagerank_returned fuel (r : gmap Page Q) :
  iterate_pagerank corpus d fuel = Ok (Some r) →
  ∃ k, (k < fuel)%nat
       ∧ settled corpus d (ranks k)
       ∧ (∀ j, (j < k)%nat → ¬ settled corpus d (ranks j))
       ∧ holds_ranks corpus r (ranks k).
Proof.
  intros Hret. destruct fuel as [|K].
  { rewrite iterate_pagerank_short in Hret by (intros j Hj; lia). done. }
  destruct (first_settled_upto K) as [(k & Hk & Hs & Hmin)|Hnone].
  - destruct (iterate_pagerank_run k Hs Hmin) as (r' & Hrun & Hr').
    rewrite (Hrun (S K)) in Hret by lia.
    injection Hret as <-. exists k. split; [lia|done].
  - rewrite iterate_pagerank_short in Hret; [done|].
    intros j Hj. apply Hnone. lia.
Qed.
End run.

(** ** The update as a linear operator *)

Lemma sumQ_filter (P : Page → Prop) `{!∀ x, Decision (P x)} f l :
  sumQ f (filter P l) == sumQ (λ x, if decide (P x) then f x else 0) l.
Proof.
  induction l as [|x l IH]; [reflexivity|].
  rewrite filter_cons, sumQ_cons. destruct (decide (P x)).
  - rewrite sumQ_cons, IH. reflexivity.
  - rewrite IH. ring.
Qed.

Lemma sumQ_minus f g l : sumQ (λ x, f x - g x) l == sumQ f l - sumQ g l.
Proof.
  induction l as [|x l IH]; [rewrite !sumQ_nil; ring|].
  rewrite !sumQ_cons, IH. ring.
Qed.

Lemma sumQ_term_le f l p :
  (∀ x, x ∈ l → 0 <= f x) → p ∈ l → f p <= sumQ f l.
Proof.
  induction l as [|x l IH]; intros Hf Hp; [by apply not_elem_of_nil in Hp|].
  rewrite sumQ_cons.
  assert (0 <= f x) by (apply Hf; by left).
  assert (0 <= sumQ f l) by (apply sumQ_nonneg; intros; apply Hf; by right).
  apply elem_of_cons in Hp as [->|Hp]; [lra|].
  assert (f p <= sumQ f l) by (apply IH; [intros; apply Hf; by right|done]).
  lra.
Qed.

Lemma Qdiv_nonneg a n : 0 <= a → 0 <= a / Qnat n.
Proof.
  intros Ha. unfold Qdiv. apply Qmult_le_0_compat; [done|].
  apply Qinv_le_0_compat, Qnat_nonneg.
Qed.

Section operator.
Variable corpus : gmap Page (gset Page).
Variable d : Q.

Local Abbreviation ranks := (iterate_ranks corpus d).
Local Abbreviation N := (Qnat (size corpus)).

(** The update of the source computes the formula of the specification. *)
Lemma update_spec r p : update corpus d r p == spec_rank corpus d r p.
Proof.
  unfold update, spec_rank.
  rewrite sumQ_plus.
  rewrite (sumQ_filter (λ q, p ∈ links_of corpus q)).
  rewrite (sumQ_filter (λ q, links_of corpus q = ∅)).
  rewrite <- !sumQ_scal, <- Qplus_assoc.
  apply Qplus_comp; [reflexivity|].
  apply Qplus_comp; apply sumQ_ext; intros q _; case_decide; ring.
Qed.

Lemma update_weight r p :
  update corpus d r p
  == (1 - d) / N + sumQ (λ q, weight corpus d q p * r q) (keys corpus).
Proof.
  unfold update, weight. apply Qplus_comp; [reflexivity|].
  apply sumQ_ext; intros q _.
  destruct (decide (p ∈ links_of corpus q)), (decide (links_of corpus q = ∅));
    unfold Qdiv; ring.
Qed.

Lemma weight_nonneg q p : 0 <= d → 0 <= weight corpus d q p.
Proof.
  intros Hd. unfold weight.
  pose proof (Qdiv_nonneg d (size (links_of corpus q)) Hd).
  pose proof (Qdiv_nonneg d (size corpus) Hd).
  destruct (decide (p ∈ links_of corpus q)), (decide (links_of corpus q = ∅)); lra.
Qed.

(** Every page hands out exactly [d] of its rank. *)
Lemma weight_sum q :
  valid_corpus corpus → q ∈ dom corpus →
  sumQ (weight corpus d q) (keys corpus) == d.
Proof.
  intros Hv Hq. pose proof (size_pos_elem corpus q Hq) as HN.
  apply elem_of_dom in Hq as [ls Hls].
  pose proof (Hv q ls Hls) as Hsub. simpl in Hsub.
  unfold weight. rewrite (links_of_lookup corpus q ls Hls).
  rewrite sumQ_plus, (sumQ_indicator (.∈ ls)), keys_filter_size by done.
  rewrite sumQ_const, length_keys.
  pose proof (Qnat_pos _ HN).
  destruct (decide (ls = ∅)) as [->|Hne].
  - rewrite size_empty. change (Qnat 0) with 0.
    assert (E : 0 * (d / 0) == 0) by ring. rewrite E. field. lra.
  - assert (0 < size ls)%nat.
    { destruct (decide (size ls = 0%nat)) as [E%size_empty_iff|]; [|lia].
      by apply leibniz_equiv in E. }
    pose proof (Qnat_pos (size ls) ltac:(done)). field. lra.
Qed.

(** An update keeps [1 - d] for the uniform part and redistributes
    [d] times the total of the previous ranks. *)
Lemma update_sum r :
  valid_corpus corpus → (0 < size corpus)%nat →
  sumQ (update corpus d r) (keys corpus)
  == (1 - d) + d * sumQ r (keys corpus).
Proof.
  intros Hv HN.
  rewrite (sumQ_ext _ _ _ (λ p _, update_weight r p)).
  rewrite sumQ_plus, sumQ_const, length_keys.
  rewrite (sumQ_exchange (λ p q, weight corpus d q p * r q)).
  rewrite (sumQ_ext _ (λ q, d * r q)).
  - rewrite sumQ_scal. pose proof (Qnat_pos _ HN). field. lra.
  - intros q Hq%elem_of_keys.
    rewrite (sumQ_ext _ (λ p, r q * weight corpus d q p)) by (intros; ring).
    rewrite sumQ_scal, weight_sum by done. ring.
Qed.

Lemma update_nonneg r p :
  0 <= d → d <= 1 → (∀ q, q ∈ dom corpus → 0 <= r q) →
  0 <= update corpus d r p.
Proof.
  intros Hd0 Hd1 Hr. rewrite update_weight.
  assert (0 <= (1 - d) / N) by (apply Qdiv_nonneg; lra).
  assert (0 <= sumQ (λ q, weight corpus d q p * r q) (keys corpus)); [|lra].
  apply sumQ_nonneg. intros q Hq%elem_of_keys.
  apply Qmult_le_0_compat; [by apply weight_nonneg|by apply Hr].
Qed.

(** The update is a contraction for the sum of absolute differences. *)
Lemma update_contraction r r' :
  valid_corpus corpus → 0 <= d →
  sumQ (λ p, Qabs (update corpus d r p - update corpus d r' p)) (keys corpus)
  <= d * sumQ (λ q, Qabs (r q - r' q)) (keys corpus).
Proof.
  intros Hv Hd.
  eapply Qle_trans.
  { apply (sumQ_le _ (λ p, sumQ (λ q, weight corpus d q p * Qabs (r q - r' q))
                                (keys corpus))).
    intros p _.
    assert (E : update corpus d r p - update corpus d r' p
                == sumQ (λ q, weight corpus d q p * (r q - r' q)) (keys corpus)).
    { rewrite !update_weight.
      rewrite (sumQ_ext (λ q, weight corpus d q p * (r q - r' q))
                 (λ q, weight corpus d q p * r q - weight corpus d q p * r' q))
        by (intros; ring).
      rewrite sumQ_minus. ring. }
    rewrite E. eapply Qle_trans; [apply sumQ_abs|].
    apply sumQ_le. intros q _. rewrite Qabs_Qmult.
    rewrite (Qabs_pos (weight corpus d q p)) by (by apply weight_nonneg).
    apply Qle_refl. }
  rewrite (sumQ_exchange (λ p q, weight corpus d q p * Qabs (r q - r' q))).
  rewrite <- sumQ_scal.
  apply Qle_lteq. right. apply sumQ_ext. intros q Hq%elem_of_keys.
  rewrite (sumQ_ext _ (λ p, Qabs (r q - r' q) * weight corpus d q p))
    by (intros; ring).
  rewrite sumQ_scal, weight_sum by done. ring.
Qed.

Lemma ranks_nonneg k p : 0 <= d → d <= 1 → 0 <= ranks k p.
Proof.
  intros Hd0 Hd1. revert p. induction k as [|k IH]; intros p; cbn [iterate_ranks].
  - apply Qdiv_nonneg. lra.
  - apply update_nonneg; [done..|]. intros q _. apply IH.
Qed.

Lemma ranks_sum k :
  valid_corpus corpus → (0 < size corpus)%nat →
  sumQ (ranks k) (keys corpus) == 1.
Proof.
  intros Hv HN. pose proof (Qnat_pos _ HN).
  induction k as [|k IH]; cbn [iterate_ranks].
  - rewrite sumQ_const, length_keys. field. lra.
  - rewrite update_sum, IH by done. ring.
Qed.

Lemma geom_nonneg k : 0 <= d → 0 <= geom d k.
Proof.
  intros Hd. induction k as [|k IH]; cbn [geom]; [lra|].
  by apply Qmult_le_0_compat.
Qed.

Lemma change_geom k :
  valid_corpus corpus → 0 <= d →
  change corpus d k <= geom d k * change corpus d 0.
Proof.
  intros Hv Hd. induction k as [|k IH]; cbn [geom]; [lra|].
  eapply Qle_trans; [apply (update_contraction (ranks (S k)) (ranks k) Hv Hd)|].
  fold (change corpus d k). rewrite <- Qmult_assoc.
  rewrite !(Qmult_comm d). by apply Qmult_le_compat_r.
Qed.

(** Bernoulli: [d^k * (1 + k * (1 - d)) <= 1]. *)
Lemma geom_bernoulli k :
  0 <= d → d <= 1 → geom d k * (1 + Qnat k * (1 - d)) <= 1.
Proof.
  intros Hd0 Hd1. induction k as [|k IH]; cbn [geom].
  - change (Qnat 0) with 0. lra.
  - rewrite Qnat_S.
    pose proof (geom_nonneg k Hd0) as Hg. pose proof (Qnat_nonneg k) as Hk.
    assert (Hsq : 0 <= geom d k * ((Qnat k + 1) * ((1 - d) * (1 - d)))).
    { apply Qmult_le_0_compat; [done|].
      apply Qmult_le_0_compat; [lra|]. apply Qmult_le_0_compat; lra. }
    assert (E : d * geom d k * (1 + (Qnat k + 1) * (1 - d))
                == geom d k * (1 + Qnat k * (1 - d))
                   - geom d k * ((Qnat k + 1) * ((1 - d) * (1 - d)))) by ring.
    rewrite E. lra.
Qed.

Lemma Q_archimedean (x : Q) : ∃ n : nat, x < Qnat n.
Proof.
  destruct x as [a b]. exists (Z.to_nat (Z.max a 0 + 1)).
  unfold Qlt, Qnat. simpl. rewrite Z2Nat.id by lia. nia.
Qed.

(** A geometric sequence of ratio [d < 1] falls below any bound. *)
Lemma geom_small B ε :
  0 <= d → d < 1 → 0 <= B → 0 < ε → ∃ k, geom d k * B < ε.
Proof.
  intros Hd0 Hd1 HB Hε.
  destruct (Q_archimedean (B / (ε * (1 - d)))) as [k Hk].
  exists k.
  assert (He : 0 < ε * (1 - d)) by (apply Qmult_lt_0_compat; lra).
  assert (HBk : B < Qnat k * (ε * (1 - d))).
  { set (e := ε * (1 - d)) in *.
    apply (Qle_lt_trans _ (B / e * e)).
    - apply Qle_lteq. right. field. lra.
    - by apply Qmult_lt_compat_r. }
  pose proof (geom_bernoulli k Hd0 (Qlt_le_weak _ _ Hd1)) as Hb.
  pose proof (geom_nonneg k Hd0) as Hg.
  pose proof (Qnat_nonneg k) as Hn.
  set (g := geom d k) in *. set (n := Qnat k) in *.
  assert (Hpos : 0 < 1 + n * (1 - d)).
  { assert (0 <= n * (1 - d)) by (apply Qmult_le_0_compat; lra). lra. }
  apply Qnot_le_lt. intros Hc.
  assert (H1 : ε * (1 + n * (1 - d)) <= g * B * (1 + n * (1 - d))).
  { apply Qmult_le_compat_r; lra. }
  assert (H2 : g * B * (1 + n * (1 - d)) <= B).
  { assert (E : g * B * (1 + n * (1 - d)) == (g * (1 + n * (1 - d))) * B) by ring.
    rewrite E. assert (E1 : B == 1 * B) by ring. rewrite E1 at 2.
    apply Qmult_le_compat_r; done. }
  assert (E3 : ε * (1 + n * (1 - d)) == ε + n * (ε * (1 - d))) by ring.
  lra.
Qed.

(** After finitely many updates the test passes. *)
Lemma eventually_settled :
  valid_corpus corpus → 0 < d → d < 1 →
  ∃ K, settled corpus d (ranks K).
Proof.
  intros Hv Hd0 Hd1.
  assert (Hd : 0 <= d) by lra.
  assert (HB : 0 <= change corpus d 0).
  { apply sumQ_nonneg. intros; apply Qabs_nonneg. }
  destruct (geom_small (change corpus d 0) threshold Hd Hd1 HB) as [K HK];
    [reflexivity|].
  exists K. intros p Hp.
  eapply Qle_lt_trans; [|exact HK].
  eapply Qle_trans; [|by apply change_geom].
  unfold change.
  apply (sumQ_term_le (λ p, Qabs (ranks (S K) p - ranks K p))).
  - intros; apply Qabs_nonneg.
  - by apply elem_of_keys.
Qed.
End operator.

(** ** The claims on iterate_pagerank *)

Lemma holds_ranks_self corpus (m : gmap Page Q) :
  dom m = dom corpus → holds_ranks corpus m (rank_of m).
Proof.
  intros Hdom. split; [done|]. intros p v Hp.
  by rewrite (rank_of_lookup _ _ _ Hp).
Qed.

Lemma holds_ranks_sum corpus (m : gmap Page Q) r :
  holds_ranks corpus m r → dict_sum m == sumQ r (keys corpus).
Proof.
  intros [Hdom Hv]. rewrite (dict_sum_fun m r Hv).
  apply sumQ_perm. by apply keys_perm.
Qed.

Lemma first_pass_spec corpus d k :
  first_pass corpus d k = true ↔
  settled corpus d (iterate_ranks corpus d k)
  ∧ ∀ j, (j < k)%nat → ¬ settled corpus d (iterate_ranks corpus d j).
Proof.
  unfold first_pass. rewrite andb_true_iff, settledb_spec, forallb_forall.
  apply and_iff_compat_l. split.
  - intros H j Hj Hs%settledb_spec.
    specialize (H j). rewrite Hs in H. discriminate H.
    apply in_seq. lia.
  - intros H j Hj%in_seq. apply negb_true_iff, not_true_is_false.
    intros Hs%settledb_spec. apply (H j); [lia|done].
Qed.

(** C2: at every pass of the loop, [page_ranks] is left untouched and
    holds the ranks of the previous pass (the uniform start before the
    first one), and the pass writes into [new_page_rank], for every page
    [p] of the corpus, [(1-d)/N + d * Σ_{q : p ∈ links(q)} rank(q)/|links(q)|
    + d * Σ_{q dangling} rank(q)/N] computed from the ranks in
    [page_ranks]. *)
Theorem relax_pass_jacobi corpus d σ pr npr :
  loop_entry corpus d σ pr npr →
  ∃ (k : nat) (old new : gmap Page Q),
    σ !! pr = Some old
    ∧ holds_ranks corpus old (iterate_ranks corpus d k)
    ∧ relax_pass corpus d pr npr σ = Ok ((), <[npr := new]> σ)
    ∧ <[npr := new]> σ !! pr = Some old
    ∧ dom new = dom corpus
    ∧ ∀ p, p ∈ dom corpus →
        ∃ v, new !! p = Some v ∧ v == spec_rank corpus d (rank_of old) p.
Proof.
  intros [k Hinv]%loop_entry_inv.
  destruct Hinv as (Hne & old & new0 & Hpr & Hnpr & Hold & Hdn).
  destruct (relax_pass_ok corpus d σ pr npr old new0 Hne Hpr Hnpr)
    as (new & Hrun & Hdom & Hnew); [apply Hold|done|].
  exists k, old, new. split; [done|]. split; [done|]. split; [done|].
  split; [by rewrite lookup_insert_ne|]. split; [done|].
  intros p Hp. rewrite <- Hdom in Hp. apply elem_of_dom in Hp as [v Hv].
  exists v. split; [done|]. rewrite (Hnew p v Hv). apply update_spec.
Qed.

Lemma relax_pass_jacobi_witness :
  ∃ σ pr npr,
    iterate_setup ex3 ∅ = Ok ((pr, npr), σ)
    ∧ ∃ (k : nat) (old new : gmap Page Q),
        σ !! pr = Some old
        ∧ holds_ranks ex3 old (iterate_ranks ex3 (85 # 100) k)
        ∧ relax_pass ex3 (85 # 100) pr npr σ = Ok ((), <[npr := new]> σ)
        ∧ <[npr := new]> σ !! pr = Some old
        ∧ dom new = dom ex3
        ∧ ∀ p, p ∈ dom ex3 →
            ∃ v, new !! p = Some v
                 ∧ v == spec_rank ex3 (85 # 100) (rank_of old) p.
Proof.
  eexists _, _, _. split; [vm_compute; reflexivity|].
  apply (relax_pass_jacobi ex3 (85 # 100)).
  apply entry_first. vm_compute. reflexivity.
Defined.

(** C6: at every pass, if every page's absolute change is below the
    threshold the loop leaves and returns [page_ranks]; if some page's
    change reaches the threshold, [page_ranks] becomes a copy of the new
    ranks and the loop goes on with it. *)
Theorem loop_exit_condition corpus d σ pr npr :
  loop_entry corpus d σ pr npr →
  ∃ old new : gmap Page Q,
    σ !! pr = Some old
    ∧ relax_pass corpus d pr npr σ = Ok ((), <[npr := new]> σ)
    ∧ dom old = dom corpus ∧ dom new = dom corpus
    ∧ ((∀ p, p ∈ dom corpus →
             Qabs (rank_of new p - rank_of old p) < threshold) →
       ∀ fuel, while_true corpus d (S fuel) pr npr σ
               = Ok (Some pr, <[npr := new]> σ))
    ∧ ((∃ p, p ∈ dom corpus
             ∧ threshold <= Qabs (rank_of new p - rank_of old p)) →
       ∃ pr' σ',
         dict_copy npr (<[npr := new]> σ) = Ok (pr', σ')
         ∧ σ' !! pr' = Some new
         ∧ loop_entry corpus d σ' pr' npr
         ∧ ∀ fuel, while_true corpus d (S fuel) pr npr σ
                   = while_true corpus d fuel pr' npr σ').
Proof.
  intros Hentry. destruct (loop_entry_inv _ _ _ _ _ Hentry) as [k Hinv].
  destruct Hinv as (Hne & old & new0 & Hpr & Hnpr & Hold & Hdn).
  destruct (relax_pass_ok corpus d σ pr npr old new0 Hne Hpr Hnpr)
    as (new & Hrun & Hdom & Hnew); [apply Hold|done|].
  assert (Hdo : dom old = dom corpus) by apply Hold.
  destruct (check_converged_dicts corpus (<[npr := new]> σ) pr npr old new)
    as (b & Hconv & Hb); try done.
  { by rewrite lookup_insert_ne. }
  { by rewrite lookup_insert_eq. }
  exists old, new. repeat (split; [done|]). split.
  - intros Hall fuel. apply Hb in Hall as ->. cbn [while_true].
    erewrite bind_ok by exact Hrun. by erewrite bind_ok by exact Hconv.
  - intros (p & Hp & Hge).
    assert (b = false) as ->.
    { apply not_true_is_false. intros Hall.
      pose proof (proj1 Hb Hall p Hp). lra. }
    set (σ1 := <[npr := new]> σ) in *.
    assert (H1 : σ1 !! npr = Some new) by apply lookup_insert_eq.
    exists (fresh (dom σ1)), (<[fresh (dom σ1) := new]> σ1).
    split; [by apply dict_copy_ok|].
    split; [by rewrite lookup_insert_eq|].
    split.
    + eapply entry_next; [exact Hentry|exact Hrun|exact Hconv|by apply dict_copy_ok].
    + intros fuel. cbn [while_true].
      erewrite bind_ok by exact Hrun. erewrite bind_ok by exact Hconv.
      cbv beta iota. by erewrite bind_ok by (by apply dict_copy_ok).
Qed.

Lemma loop_exit_condition_witness :
  ∃ σ pr npr,
    iterate_setup ex2 ∅ = Ok ((pr, npr), σ)
    ∧ ∃ old new : gmap Page Q,
        σ !! pr = Some old
        ∧ relax_pass ex2 (1 # 2) pr npr σ = Ok ((), <[npr := new]> σ)
        ∧ dom old = dom ex2 ∧ dom new = dom ex2
        ∧ ((∀ p, p ∈ dom ex2 →
                 Qabs (rank_of new p - rank_of old p) < threshold) →
           ∀ fuel, while_true ex2 (1 # 2) (S fuel) pr npr σ
                   = Ok (Some pr, <[npr := new]> σ))
        ∧ ((∃ p, p ∈ dom ex2
                 ∧ threshold <= Qabs (rank_of new p - rank_of old p)) →
           ∃ pr' σ',
             dict_copy npr (<[npr := new]> σ) = Ok (pr', σ')
             ∧ σ' !! pr' = Some new
             ∧ loop_entry ex2 (1 # 2) σ' pr' npr
             ∧ ∀ fuel, while_true ex2 (1 # 2) (S fuel) pr npr σ
                       = while_true ex2 (1 # 2) fuel pr' npr σ').
Proof.
  eexists _, _, _. split; [vm_compute; reflexivity|].
  apply (loop_exit_condition ex2 (1 # 2)).
  apply entry_first. vm_compute. reflexivity.
Defined.

(** C5, amended: computed in exact rationals, on a non-empty valid corpus
    with damping in (0,1) the loop leaves after finitely many passes: the
    test passes on some iterate, and with fuel for that many passes
    [iterate_pagerank] returns. *)
Theorem iterate_pagerank_terminates corpus d :
  corpus ≠ ∅ → valid_corpus corpus → 0 < d → d < 1 →
  ∃ (k : nat) (r : gmap Page Q),
    settled corpus d (iterate_ranks corpus d k)
    ∧ ∀ fuel, (k < fuel)%nat → iterate_pagerank corpus d fuel = Ok (Some r).
Proof.
  intros _ Hv Hd0 Hd1.
  destruct (eventually_settled corpus d Hv Hd0 Hd1) as [K HK].
  destruct (first_settled corpus d K HK) as (k & _ & Hk & Hmin).
  destruct (iterate_pagerank_run corpus d k Hk Hmin) as (r & Hrun & _).
  by exists k, r.
Qed.

Lemma iterate_pagerank_terminates_witness :
  ∃ (k : nat) (r : gmap Page Q),
    settled ex3 (85 # 100) (iterate_ranks ex3 (85 # 100) k)
    ∧ ∀ fuel, (k < fuel)%nat → iterate_pagerank ex3 (85 # 100) fuel = Ok (Some r).
Proof.
  apply (iterate_pagerank_terminates ex3 (85 # 100)).
  - apply (bool_decide_unpack _). vm_compute. exact I.
  - apply (bool_decide_unpack _). vm_compute. exact I.
  - reflexivity.
  - reflexivity.
Defined.

(** One turn of the binary64 loop whose test fails hands the new ranks
    to the next turn. *)
Lemma binary64_while_true_step corpus d fuel pr npr new :
  Binary64.loop_body corpus d pr npr = Ok (new, false) →
  Binary64.while_true corpus d (S fuel) pr npr
  = Binary64.while_true corpus d fuel new new.
Proof. intros H. cbn [Binary64.while_true]. by rewrite H. Qed.

Lemma binary64_cycle_forever fuel :
  Binary64.while_true Binary64.cycle_corpus Binary64.cycle_damping fuel
    Binary64.cycle_even Binary64.cycle_even = Ok None
  ∧ Binary64.while_true Binary64.cycle_corpus Binary64.cycle_damping fuel
      Binary64.cycle_odd Binary64.cycle_odd = Ok None.
Proof.
  induction fuel as [|fuel [IHe IHo]]; [done|]. split.
  - rewrite (binary64_while_true_step _ _ _ _ _ Binary64.cycle_odd); [done|].
    vm_compute. reflexivity.
  - rewrite (binary64_while_true_step _ _ _ _ _ Binary64.cycle_even); [done|].
    vm_compute. reflexivity.
Qed.

(** At the usual damping factor the binary64 loop does leave: on the
    corpus of [ex3] with 0.85 it returns ranks that sum to 1 within the
    threshold. *)
Example iterate_pagerank_binary64_returns :
  ∃ r, Binary64.iterate_pagerank Binary64.ex3_ordered Binary64.damping_085 20
       = Ok (Some r)
       ∧ PrimFloat.leb
           (PrimFloat.abs (PrimFloat.sub (Binary64.dict_sum r) Binary64.one))
           Binary64.threshold = true.
Proof. eexists. split; vm_compute; reflexivity. Qed.

(** C5 as stated fails in binary64, the arithmetic the program runs in:
    on a valid corpus of three pages with the damping factor
    0.9999999999999999, which lies in (0,1), the ranks alternate between
    two states from the second pass on, the change of "A" between them is
    1/3, and the loop never leaves, whatever the number of passes. *)
Lemma iterate_pagerank_binary64_cycles :
  Binary64.valid_corpus Binary64.cycle_corpus = true
  ∧ Binary64.cycle_corpus ≠ []
  ∧ PrimFloat.ltb PrimFloat.zero Binary64.cycle_damping = true
  ∧ PrimFloat.ltb Binary64.cycle_damping Binary64.one = true
  ∧ Binary64.loop_body Binary64.cycle_corpus Binary64.cycle_damping
      Binary64.cycle_even Binary64.cycle_even = Ok (Binary64.cycle_odd, false)
  ∧ Binary64.loop_body Binary64.cycle_corpus Binary64.cycle_damping
      Binary64.cycle_odd Binary64.cycle_odd = Ok (Binary64.cycle_even, false)
  ∧ ∀ fuel,
      Binary64.iterate_pagerank Binary64.cycle_corpus Binary64.cycle_damping fuel
      = Ok None.
Proof.
  split; [vm_compute; reflexivity|]. split; [done|].
  split; [vm_compute; reflexivity|]. split; [vm_compute; reflexivity|].
  split; [vm_compute; reflexivity|]. split; [vm_compute; reflexivity|].
  intros fuel. unfold Binary64.iterate_pagerank.
  replace (Binary64.iterate_setup Binary64.cycle_corpus)
    with (Ok Binary64.cycle_start) by (vm_compute; reflexivity).
  cbn [mbind result_bind].
  destruct fuel as [|fuel]; [done|].
  rewrite (binary64_while_true_step _ _ _ _ _ Binary64.cycle_first)
    by (vm_compute; reflexivity).
  destruct fuel as [|fuel]; [done|].
  rewrite (binary64_while_true_step _ _ _ _ _ Binary64.cycle_even)
    by (vm_compute; reflexivity).
  apply binary64_cycle_forever.
Qed.

(** The copies of lines 129 and 155 matter: a pass run with
    [page_ranks] and [new_page_rank] naming one object would read ranks
    already updated in the same pass (here "B" gets 9/16 instead of 5/8). *)
Example relax_pass_aliased :
  ∃ σ pr npr σa σj (a j : gmap Page Q),
    iterate_setup ex2 ∅ = Ok ((pr, npr), σ)
    ∧ relax_pass ex2 (1 # 2) pr pr σ = Ok ((), σa) ∧ σa !! pr = Some a
    ∧ relax_pass ex2 (1 # 2) pr npr σ = Ok ((), σj) ∧ σj !! npr = Some j
    ∧ rank_of a "B" == 9 # 16 ∧ rank_of j "B" == 5 # 8.
Proof.
  eexists _, _, _, _, _, _, _.
  split; [vm_compute; reflexivity|].
  split; [vm_compute; reflexivity|]. split; [vm_compute; reflexivity|].
  split; [vm_compute; reflexivity|]. split; [vm_compute; reflexivity|].
  split; reflexivity.
Qed.

(** One pass keeps the ranks non-negative and their sum equal to 1. *)
Lemma relax_pass_distribution corpus d σ pr npr (old new0 : gmap Page Q) :
  valid_corpus corpus → 0 < d → d < 1 →
  pr ≠ npr → σ !! pr = Some old → σ !! npr = Some new0 →
  dom old = dom corpus → dom new0 = dom corpus →
  (∀ p v, old !! p = Some v → 0 <= v) → dict_sum old == 1 →
  ∃ new : gmap Page Q,
    relax_pass corpus d pr npr σ = Ok ((), <[npr := new]> σ)
    ∧ dom new = dom corpus
    ∧ (∀ p v, new !! p = Some v → 0 <= v)
    ∧ dict_sum new == 1.
Proof.
  intros Hv Hd0 Hd1 Hne Hpr Hnpr Hdo Hdn Hpos Hsum.
  destruct (relax_pass_ok corpus d σ pr npr old new0 Hne Hpr Hnpr Hdo Hdn)
    as (new & Hrun & Hnew).
  exists new. split; [done|]. split; [apply Hnew|].
  assert (Hold : sumQ (rank_of old) (keys corpus) == 1).
  { rewrite <- Hsum. symmetry. by apply holds_ranks_sum, holds_ranks_self. }
  assert (HN : (0 < size corpus)%nat).
  { destruct (decide (size corpus = 0%nat)) as [E|]; [|lia]. exfalso.
    apply map_size_empty_iff in E. subst corpus.
    unfold sumQ, keys in Hold. rewrite map_to_list_empty in Hold.
    simpl in Hold. lra. }
  split.
  - intros p v Hp. destruct Hnew as [_ Hval]. rewrite (Hval p v Hp).
    apply update_nonneg; [lra..|]. intros q Hq. rewrite <- Hdo in Hq.
    apply elem_of_dom in Hq as [w Hw]. rewrite (rank_of_lookup _ _ _ Hw).
    by eapply Hpos.
  - rewrite (holds_ranks_sum _ _ _ Hnew), update_sum, Hold by done. ring.
Qed.

(** C4, amended: on a valid corpus with damping in (0,1), one pass
    maps non-negative ranks that sum to 1 to non-negative ranks that sum
    to 1; consequently, when the corpus is not empty, a dict that
    [iterate_pagerank] returns, whatever the number of passes it took,
    has the pages of the corpus as keys and non-negative values that sum
    to 1. *)
Theorem iterate_pagerank_distribution corpus d :
  valid_corpus corpus → 0 < d → d < 1 →
  (∀ σ pr npr (old new0 : gmap Page Q),
     pr ≠ npr → σ !! pr = Some old → σ !! npr = Some new0 →
     dom old = dom corpus → dom new0 = dom corpus →
     (∀ p v, old !! p = Some v → 0 <= v) → dict_sum old == 1 →
     ∃ new : gmap Page Q,
       relax_pass corpus d pr npr σ = Ok ((), <[npr := new]> σ)
       ∧ dom new = dom corpus
       ∧ (∀ p v, new !! p = Some v → 0 <= v)
       ∧ dict_sum new == 1)
  ∧ (corpus ≠ ∅ →
     ∀ fuel (r : gmap Page Q),
       iterate_pagerank corpus d fuel = Ok (Some r) →
       dom r = dom corpus
       ∧ (∀ p v, r !! p = Some v → 0 <= v)
       ∧ dict_sum r == 1).
Proof.
  intros Hv Hd0 Hd1. split.
  { intros. by eapply relax_pass_distribution. }
  intros Hne fuel r Hret.
  destruct (iterate_pagerank_returned corpus d fuel r Hret)
    as (k & _ & _ & _ & Hr).
  split; [apply Hr|]. split.
  - intros p v Hp. destruct Hr as [_ Hval]. rewrite (Hval p v Hp).
    apply ranks_nonneg; lra.
  - rewrite (holds_ranks_sum _ _ _ Hr). apply ranks_sum; [done|].
    destruct (map_choose corpus Hne) as (p & ls & Hp).
    eapply size_pos_elem, elem_of_dom_2, Hp.
Qed.

Lemma iterate_pagerank_distribution_witness :
  (∀ σ pr npr (old new0 : gmap Page Q),
     pr ≠ npr → σ !! pr = Some old → σ !! npr = Some new0 →
     dom old = dom ex2 → dom new0 = dom ex2 →
     (∀ p v, old !! p = Some v → 0 <= v) → dict_sum old == 1 →
     ∃ new : gmap Page Q,
       relax_pass ex2 (1 # 2) pr npr σ = Ok ((), <[npr := new]> σ)
       ∧ dom new = dom ex2
       ∧ (∀ p v, new !! p = Some v → 0 <= v)
       ∧ dict_sum new == 1)
  ∧ ∃ r : gmap Page Q,
      iterate_pagerank ex2 (1 # 2) 20 = Ok (Some r)
      ∧ dom r = dom ex2
      ∧ (∀ p v, r !! p = Some v → 0 <= v)
      ∧ dict_sum r == 1.
Proof.
  destruct (iterate_pagerank_distribution ex2 (1 # 2)) as [Hpass Hret].
  - apply (bool_decide_unpack _). vm_compute. exact I.
  - reflexivity.
  - reflexivity.
  - split; [exact Hpass|].
    eexists. split; [vm_compute; reflexivity|].
    apply (Hret ltac:(apply (bool_decide_unpack _); vm_compute; exact I) 20%nat).
    vm_compute. reflexivity.
Defined.

(** C4 as stated fails on the empty corpus, which is valid: the dict
    returned is empty and its values sum to 0. *)
Lemma iterate_pagerank_empty_sum :
  valid_corpus ∅
  ∧ iterate_pagerank ∅ (85 # 100) 1 = Ok (Some ∅)
  ∧ ¬ dict_sum ∅ == 1.
Proof.
  split; [apply map_Forall_empty|]. split; [reflexivity|].
  intros H. discriminate H.
Qed.

(** C8, amended: on the empty corpus no division is evaluated; every
    loop body is skipped, the test passes at once and [iterate_pagerank]
    returns the empty dict without raising. *)
Theorem iterate_pagerank_empty d fuel :
  iterate_pagerank ∅ d (S fuel) = Ok (Some ∅).
Proof. reflexivity. Qed.

(** C8 as stated fails: on the empty corpus a result is returned. *)
Lemma iterate_pagerank_empty_returns :
  iterate_pagerank ∅ (85 # 100) 1 = Ok (Some ∅).
Proof. reflexivity. Qed.

(** C10, amended: when the test first passes, on the ranks after [k]
    updates, [iterate_pagerank] returns the [page_ranks] object, which
    holds those ranks; [new_page_rank], a different object holding the
    ranks after [k + 1] updates, is dropped.  The returned ranks are the
    first of the sequence on which the test passes; with fuel for [k]
    passes or fewer the loop is still running. *)
Theorem iterate_pagerank_returns_first corpus d k :
  first_pass corpus d k = true →
  ∃ pr npr σ0 l σ (r new : gmap Page Q),
    iterate_setup corpus ∅ = Ok ((pr, npr), σ0)
    ∧ (∀ fuel, (k < fuel)%nat →
         iterate_pagerank_st corpus d fuel ∅ = Ok (Some l, σ)
         ∧ iterate_pagerank corpus d fuel = Ok (Some r))
    ∧ (∀ fuel, (fuel ≤ k)%nat → iterate_pagerank corpus d fuel = Ok None)
    ∧ l ≠ npr
    ∧ σ !! l = Some r ∧ σ !! npr = Some new
    ∧ holds_ranks corpus r (iterate_ranks corpus d k)
    ∧ holds_ranks corpus new (iterate_ranks corpus d (S k))
    ∧ settled corpus d (iterate_ranks corpus d k)
    ∧ ∀ j, (j < k)%nat → ¬ settled corpus d (iterate_ranks corpus d j).
Proof.
  intros [Hk Hmin]%first_pass_spec.
  destruct (iterate_pagerank_st_run corpus d k Hk Hmin)
    as (pr & npr & σ0 & l & σ & r & new & Hsetup & Hrun & Hl & Hr & Hn & Hhr & Hhn).
  exists pr, npr, σ0, l, σ, r, new. split; [done|]. split.
  { intros fuel Hfuel. split; [by apply Hrun|].
    unfold iterate_pagerank. by rewrite (Hrun fuel Hfuel), Hr. }
  split.
  { intros fuel Hfuel. apply iterate_pagerank_short.
    intros j Hj. apply Hmin. lia. }
  done.
Qed.

Lemma iterate_pagerank_returns_first_witness :
  ∃ pr npr σ0 l σ (r new : gmap Page Q),
    iterate_setup ex2 ∅ = Ok ((pr, npr), σ0)
    ∧ (∀ fuel, (4 < fuel)%nat →
         iterate_pagerank_st ex2 (1 # 2) fuel ∅ = Ok (Some l, σ)
         ∧ iterate_pagerank ex2 (1 # 2) fuel = Ok (Some r))
    ∧ (∀ fuel, (fuel ≤ 4)%nat → iterate_pagerank ex2 (1 # 2) fuel = Ok None)
    ∧ l ≠ npr
    ∧ σ !! l = Some r ∧ σ !! npr = Some new
    ∧ holds_ranks ex2 r (iterate_ranks ex2 (1 # 2) 4)
    ∧ holds_ranks ex2 new (iterate_ranks ex2 (1 # 2) 5)
    ∧ settled ex2 (1 # 2) (iterate_ranks ex2 (1 # 2) 4)
    ∧ ∀ j, (j < 4)%nat → ¬ settled ex2 (1 # 2) (iterate_ranks ex2 (1 # 2) j).
Proof.
  apply (iterate_pagerank_returns_first ex2 (1 # 2) 4).
  vm_compute. reflexivity.
Defined.

(** C10 as stated fails: the returned ranks are not the only iterate
    that one more update moves by less than the threshold.  On [ex2]
    with damping 1/2 the loop returns the ranks after 4 updates; the
    ranks after 5 updates pass the same test and differ from them. *)
Lemma iterate_pagerank_not_unique :
  ∃ r : gmap Page Q,
    iterate_pagerank ex2 (1 # 2) 5 = Ok (Some r)
    ∧ rank_of r "A" == iterate_ranks ex2 (1 # 2) 4 "A"
    ∧ settled ex2 (1 # 2) (iterate_ranks ex2 (1 # 2) 4)
    ∧ settled ex2 (1 # 2) (iterate_ranks ex2 (1 # 2) 5)
    ∧ ¬ iterate_ranks ex2 (1 # 2) 5 "A" == rank_of r "A".
Proof.
  eexists. split; [vm_compute; reflexivity|].
  split; [vm_compute; reflexivity|].
  split; [apply settledb_spec; vm_compute; reflexivity|].
  split; [apply settledb_spec; vm_compute; reflexivity|].
  intros H. vm_compute in H. discriminate H.
Qed.

(** The values of the two dicts can coincide: on a two-page cycle the
    uniform start is a fixed point, so the returned ranks and the ranks
    of the dropped [new_page_rank] are both 1/2 everywhere. *)
Example iterate_pagerank_cycle_fixed :
  first_pass ex_cycle (1 # 2) 0 = true
  ∧ iterate_ranks ex_cycle (1 # 2) 0 "A" == 1 # 2
  ∧ iterate_ranks ex_cycle (1 # 2) 1 "A" == 1 # 2
  ∧ iterate_ranks ex_cycle (1 # 2) 0 "B" == 1 # 2
  ∧ iterate_ranks ex_cycle (1 # 2) 1 "B" == 1 # 2.
Proof. repeat split; vm_compute; reflexivity. Qed.

(** * Further properties *)

(** ** transition_model: errors, bounds and the dangling rule *)

Lemma keys_filter_size_inter {V} (d : gmap Page V) (X : gset Page) :
  length (filter (.∈ X) (keys d)) = size (X ∩ dom d).
Proof.
  unfold size at 1, set_size. simpl. apply Permutation_length.
  apply NoDup_Permutation.
  - apply NoDup_filter, NoDup_keys.
  - apply NoDup_elements.
  - intros k. rewrite list_elem_of_filter, elem_of_keys, elem_of_elements.
    rewrite elem_of_intersection. tauto.
Qed.

Lemma Qdiv_le_self a n : 0 <= a → (0 < n)%nat → a / Qnat n <= a.
Proof.
  intros Ha Hn. apply Qle_shift_div_r; [by apply Qnat_pos|].
  assert (1 <= Qnat n) by (unfold Qnat, Qle; simpl; lia).
  assert (E : a == a * 1) by ring. rewrite E at 1.
  rewrite !(Qmult_comm a). by apply Qmult_le_compat_r.
Qed.

(** X1: The only exception [transition_model] raises is [KeyError], and it
    raises it exactly when [page] is not a key of the corpus: no division
    by zero occurs for any corpus, valid or not, and any damping factor. *)
Theorem transition_model_errors corpus page d :
  match transition_model corpus page d with
  | Ok pd => page ∈ dom corpus ∧ dom pd = dom corpus
  | Raise e => e = KeyError ∧ page ∉ dom corpus
  end.
Proof.
  destruct (corpus !! page) as [ls|] eqn:Hls.
  - destruct (transition_model_lookup corpus page d ls Hls) as (pd & -> & Hdom & _).
    split; [by eapply elem_of_dom_2|done].
  - unfold transition_model, getitem. rewrite Hls. simpl.
    split; [done|]. by apply not_elem_of_dom.
Qed.

(** X2: Without any assumption on the link sets, the values sum to
    [(1-d) + d * |links ∩ keys| / |links|]: of the share [d] only the
    fraction of the links that stay inside the corpus is handed out. *)
Theorem transition_model_sum_general corpus page d ls :
  corpus !! page = Some ls →
  ∃ pd, transition_model corpus page d = Ok pd
    ∧ dict_sum pd
      == (1 - d) + d * (Qnat (size (effective_links corpus ls ∩ dom corpus))
                        / Qnat (size (effective_links corpus ls))).
Proof.
  intros Hls.
  destruct (transition_model_lookup corpus page d ls Hls) as (pd & Hrun & Hdom & Hpd).
  set (links := effective_links corpus ls) in *.
  assert (HN : (0 < size corpus)%nat) by (eapply size_pos_elem, elem_of_dom_2, Hls).
  assert (HL : (0 < size links)%nat) by (eapply effective_links_pos, Hls).
  pose proof (Qnat_pos _ HN) as HNq. pose proof (Qnat_pos _ HL) as HLq.
  assert (Hsum : dict_sum pd
                 == (1 - d) + d * (Qnat (size (links ∩ dom corpus)) / Qnat (size links))).
  { rewrite (dict_sum_fun pd (tm_value corpus d links)).
    - rewrite (sumQ_perm _ _ (keys corpus)) by (by apply keys_perm).
      rewrite (sumQ_ext _ _ _ (λ k _, tm_value_split corpus d links k)).
      rewrite sumQ_plus, sumQ_const, length_keys.
      rewrite (sumQ_indicator (.∈ links)), keys_filter_size_inter.
      field. split; lra.
    - intros k v. rewrite Hpd. case_decide; [|done]. by intros [= <-]. }
  exists pd. by split.
Qed.

Lemma transition_model_sum_general_witness :
  ∃ pd, transition_model ex_out "A" (85 # 100) = Ok pd
    ∧ dict_sum pd
      == (1 - (85 # 100))
         + (85 # 100) * (Qnat (size (effective_links ex_out {["B"; "Z"]} ∩ dom ex_out))
                         / Qnat (size (effective_links ex_out {["B"; "Z"]}))).
Proof.
  apply (transition_model_sum_general ex_out "A" (85 # 100) {["B"; "Z"]}).
  reflexivity.
Defined.

(** X3: For a damping factor in (0,1) every page of the corpus gets a
    probability in (0,1], whatever the link sets: no page is unreachable
    in one step. *)
Theorem transition_model_positive corpus page d ls :
  corpus !! page = Some ls → 0 < d → d < 1 →
  ∃ pd, transition_model corpus page d = Ok pd
    ∧ ∀ k, k ∈ dom corpus → ∃ v, pd !! k = Some v ∧ 0 < v ∧ v <= 1.
Proof.
  intros Hls Hd0 Hd1.
  destruct (transition_model_lookup corpus page d ls Hls) as (pd & Hrun & Hdom & Hpd).
  set (links := effective_links corpus ls) in *.
  assert (HN : (0 < size corpus)%nat) by (eapply size_pos_elem, elem_of_dom_2, Hls).
  assert (HL : (0 < size links)%nat) by (eapply effective_links_pos, Hls).
  exists pd. split; [done|]. intros k Hk. eexists. split.
  { rewrite Hpd. by rewrite decide_True. }
  assert (H1 : 0 < (1 - d) / Qnat (size corpus)).
  { apply Qlt_shift_div_l; [by apply Qnat_pos|]. lra. }
  assert (H2 : (1 - d) / Qnat (size corpus) <= 1 - d) by (apply Qdiv_le_self; [lra|done]).
  assert (H3 : 0 <= d / Qnat (size links)) by (apply Qdiv_nonneg; lra).
  assert (H4 : d / Qnat (size links) <= d) by (apply Qdiv_le_self; [lra|done]).
  unfold tm_value. case_decide; lra.
Qed.

Lemma transition_model_positive_witness :
  ∃ pd, transition_model ex3 "A" (85 # 100) = Ok pd
    ∧ ∀ k, k ∈ dom ex3 → ∃ v, pd !! k = Some v ∧ 0 < v ∧ v <= 1.
Proof.
  apply (transition_model_positive ex3 "A" (85 # 100) {["B"; "C"]});
    reflexivity.
Defined.

(** X4: "Treat no links as a link to all": for a page without links,
    [transition_model] returns the very dict it returns when the page
    links to every page of the corpus, itself included. *)
Theorem transition_model_dangling_as_all corpus page d :
  corpus !! page = Some ∅ →
  transition_model (<[page := dom corpus]> corpus) page d
  = transition_model corpus page d.
Proof.
  intros Hls.
  assert (Hin : page ∈ dom corpus) by (by eapply elem_of_dom_2).
  set (corpus' := <[page := dom corpus]> corpus).
  assert (Hdom : dom corpus' = dom corpus).
  { unfold corpus'. rewrite dom_insert_L. apply subseteq_union_1_L.
    by apply singleton_subseteq_l. }
  assert (Hsize : size corpus' = size corpus) by (by rewrite <- !size_dom, Hdom).
  destruct (transition_model_lookup corpus page d ∅ Hls) as (pd & -> & _ & Hpd).
  destruct (transition_model_lookup corpus' page d (dom corpus))
    as (pd' & -> & _ & Hpd'); [apply lookup_insert_eq|].
  f_equal. apply map_eq. intros k. rewrite Hpd, Hpd', Hdom.
  case_decide; [|done]. f_equal.
  assert (E : effective_links corpus' (dom corpus) = effective_links corpus ∅).
  { unfold effective_links.
    case_bool_decide as E1; case_bool_decide as E2; done. }
  rewrite E. unfold tm_value. by rewrite Hsize.
Qed.

Lemma transition_model_dangling_as_all_witness :
  transition_model (<["C" := dom ex3]> ex3) "C" (85 # 100)
  = transition_model ex3 "C" (85 # 100).
Proof.
  apply (transition_model_dangling_as_all ex3 "C" (85 # 100)). reflexivity.
Defined.

(** ** sample_pagerank: the empty corpus, bounds and the draws used *)

(** On the empty corpus [random.choice] has nothing to choose from:
    [sample_pagerank] raises [IndexError] for every [n], every damping
    factor and every random source. *)
Theorem sample_pagerank_empty rng d n :
  sample_pagerank rng ∅ d n = Raise IndexError.
Proof. reflexivity. Qed.

(** The run of [sample_pagerank] on a non-empty corpus for [n >= 1]. *)
Lemma sample_pagerank_run rng corpus d n :
  corpus ≠ ∅ → (1 ≤ n)%nat →
  ∃ visited r,
    length visited = n
    ∧ sample_pagerank rng corpus d n = Ok r
    ∧ dom r = dom corpus
    ∧ ∀ p, p ∈ dom corpus →
        ∃ v, r !! p = Some v ∧ v == Qnat (visits p visited) / Qnat n.
Proof.
  intros Hne Hn.
  destruct (map_choose corpus Hne) as (k0 & ls0 & Hk0).
  destruct (random_choice_ok (rng 0%nat) (keys corpus)) as (start & Hstart & Hin).
  { eapply keys_nonempty, elem_of_dom_2, Hk0. }
  apply elem_of_keys in Hin.
  set (pr0 := foldl (λ pr web_page, <[web_page := 0]> pr) (∅ : gmap Page Q) (keys corpus)).
  assert (Hdom0 : dom pr0 = dom corpus) by apply zero_fill_dom.
  destruct (sample_loop rng corpus d n 0 pr0 start Hin Hdom0) as
    (visited & pr' & wp' & _ & Hloop & Hlen & _ & Hdom' & Hcnt).
  destruct (for_each_assign (λ _ c, c / Qnat n)
    (λ page pr, count ← getitem pr page; v ← pydiv count (Qnat n);
                Ok (<[page := v]> pr)) (keys pr') pr') as (r & Hrun & Hr).
  { intros k m v _ Hv. unfold getitem. rewrite Hv. simpl.
    rewrite pydiv_ok by lia. done. }
  { apply NoDup_keys. }
  { intros k Hk%elem_of_keys. by apply elem_of_dom. }
  exists visited, r. split; [done|]. split.
  { unfold sample_pagerank. fold pr0. rewrite Hstart. simpl. by rewrite Hloop. }
  split.
  { rewrite <- Hdom'. apply set_eq. intros k. rewrite !elem_of_dom, Hr.
    destruct (decide (k ∈ keys pr')) as [Hk|Hk]; [|done].
    apply elem_of_keys, elem_of_dom in Hk as [c ->]. split; by eexists. }
  intros p Hp. destruct (Hcnt p 0) as (c' & Hc' & Hq).
  { unfold pr0. rewrite zero_fill_lookup, decide_True; [done|].
    by apply elem_of_keys. }
  exists (c' / Qnat n). split.
  - rewrite Hr, decide_True, Hc'; [done|]. apply elem_of_keys. by rewrite Hdom'.
  - rewrite Hq. pose proof (Qnat_pos n ltac:(lia)). field. lra.
Qed.

Lemma visits_le p visited : (visits p visited ≤ length visited)%nat.
Proof. unfold visits. apply length_filter. Qed.

(** X5: For a damping factor in (0,1), where every page has a positive
    weight in every draw, every value [sample_pagerank] returns lies
    between 0 and 1, as its docstring says. *)
Theorem sample_pagerank_bounds rng corpus d n :
  corpus ≠ ∅ → 0 < d → d < 1 → (1 ≤ n)%nat →
  ∃ r, sample_pagerank rng corpus d n = Ok r
       ∧ ∀ p v, r !! p = Some v → 0 <= v ∧ v <= 1.
Proof.
  intros Hne _ _ Hn.
  destruct (sample_pagerank_run rng corpus d n Hne Hn)
    as (visited & r & Hlen & Hrun & Hdom & Hval).
  exists r. split; [done|]. intros p v Hp.
  destruct (Hval p) as (v' & Hv' & Hq).
  { rewrite <- Hdom. by eapply elem_of_dom_2. }
  assert (v = v') as -> by congruence. rewrite Hq.
  pose proof (Qnat_pos n ltac:(lia)) as Hnq.
  pose proof (visits_le p visited) as Hle. rewrite Hlen in Hle.
  split.
  - apply Qle_shift_div_l; [done|]. pose proof (Qnat_nonneg (visits p visited)). lra.
  - apply Qle_shift_div_r; [done|]. unfold Qnat, Qle. simpl. lia.
Qed.

Lemma sample_pagerank_bounds_witness :
  ∃ r, sample_pagerank rng7 ex3 (85 # 100) 10 = Ok r
       ∧ ∀ p v, r !! p = Some v → 0 <= v ∧ v <= 1.
Proof.
  apply (sample_pagerank_bounds rng7 ex3 (85 # 100) 10).
  - apply (bool_decide_unpack _). vm_compute. exact I.
  - reflexivity.
  - reflexivity.
  - lia.
Defined.

Lemma random_choice_same_outcome draw draw' (l : list Page) :
  match random_choice draw l, random_choice draw' l with
  | Ok _, Ok _ => True
  | Raise e, Raise e' => e = e'
  | _, _ => False
  end.
Proof.
  destruct l as [|x l]; [done|].
  destruct (random_choice_ok draw (x :: l)) as (p & -> & _); [done|].
  by destruct (random_choice_ok draw' (x :: l)) as (p' & -> & _).
Qed.

Lemma sample_step_same_counters rng rng' corpus d i st :
  same_counters (sample_step rng corpus d i st) (sample_step rng' corpus d i st).
Proof.
  destruct st as [pr wp]. unfold sample_step.
  destruct (getitem pr wp) as [c|e]; [|done]. simpl.
  destruct (transition_model corpus wp d) as [pd|e]; [|done]. simpl.
  unfold random_choices.
  pose proof (random_choice_same_outcome (rng (S i)) (rng' (S i)) (keys pd)) as H.
  destruct (random_choice (rng (S i)) (keys pd)),
           (random_choice (rng' (S i)) (keys pd)); done.
Qed.

Lemma sample_step_same rng rng' corpus d i st :
  rng (S i) = rng' (S i) →
  sample_step rng corpus d i st = sample_step rng' corpus d i st.
Proof. intros H. destruct st as [pr wp]. unfold sample_step. by rewrite H. Qed.

(** The counters after [m + 1] steps depend on the draws of the first
    [m] steps only. *)
Lemma sample_loop_same_counters rng rng' corpus d m : ∀ i st,
  (∀ j, (i < j ≤ i + m)%nat → rng j = rng' j) →
  same_counters (for_each (seq i (S m)) st (sample_step rng corpus d))
                (for_each (seq i (S m)) st (sample_step rng' corpus d)).
Proof.
  induction m as [|m IH]; intros i st Hrng.
  - cbn [seq for_each].
    pose proof (sample_step_same_counters rng rng' corpus d i st) as H.
    destruct (sample_step rng corpus d i st), (sample_step rng' corpus d i st); done.
  - change (seq i (S (S m))) with (i :: seq (S i) (S m)). cbn [for_each].
    rewrite (sample_step_same rng rng' corpus d i st) by (apply Hrng; lia).
    destruct (sample_step rng' corpus d i st) as [st1|e]; [|done].
    cbn [mbind result_bind]. apply IH. intros j Hj. apply Hrng. lia.
Qed.

(** X6: The walk draws [n + 1] times, once for the start and once at the end
    of each step, but the page drawn at the end of the last step is never
    counted: two random sources that agree on their first [n] draws give
    the same result, be it a dict or an exception. *)
Theorem sample_pagerank_last_draw_unused rng rng' corpus d n :
  (∀ i, (i < n)%nat → rng i = rng' i) →
  sample_pagerank rng corpus d n = sample_pagerank rng' corpus d n.
Proof.
  intros Hrng. unfold sample_pagerank.
  set (pr0 := foldl _ _ _).
  destruct n as [|m].
  - pose proof (random_choice_same_outcome (rng 0%nat) (rng' 0%nat) (keys corpus)) as H.
    destruct (random_choice (rng 0%nat) (keys corpus)),
             (random_choice (rng' 0%nat) (keys corpus)); try done.
    by subst.
  - rewrite <- (Hrng 0%nat) by lia.
    destruct (random_choice (rng 0%nat) (keys corpus)) as [start|e]; [|done].
    cbn [mbind result_bind].
    pose proof (sample_loop_same_counters rng rng' corpus d m 0 (pr0, start)) as H.
    destruct (for_each (seq 0 (S m)) (pr0, start) (sample_step rng corpus d)) as [st|e],
             (for_each (seq 0 (S m)) (pr0, start) (sample_step rng' corpus d)) as [st'|e'];
      simpl in H.
    + cbn [mbind result_bind]. rewrite H; [done|]. intros j Hj. apply Hrng. lia.
    + exfalso. apply H. intros j Hj. apply Hrng. lia.
    + exfalso. apply H. intros j Hj. apply Hrng. lia.
    + rewrite H; [done|]. intros j Hj. apply Hrng. lia.
Qed.

Lemma sample_pagerank_last_draw_unused_witness :
  sample_pagerank rng7 ex3 (85 # 100) 10
  = sample_pagerank rng7_cut ex3 (85 # 100) 10.
Proof.
  apply (sample_pagerank_last_draw_unused rng7 rng7_cut ex3 (85 # 100) 10).
  intros i Hi. unfold rng7_cut.
  by rewrite (proj2 (Nat.ltb_lt i 10) Hi).
Defined.

(** ** iterate_pagerank: errors, bounds and special corpora *)

Section iterate_more.
Variable corpus : gmap Page (gset Page).
Variable d : Q.

Local Abbreviation ranks := (iterate_ranks corpus d).

(** From a state of the loop, any amount of fuel gives a result or runs
    out; nothing is raised. *)
Lemma while_true_no_raise : ∀ fuel k σ pr npr,
  loop_inv corpus d σ pr npr k →
  ∃ o σ', while_true corpus d fuel pr npr σ = Ok (o, σ')
          ∧ ∀ l, o = Some l →
              ∃ r : gmap Page Q, σ' !! l = Some r ∧ dom r = dom corpus.
Proof.
  induction fuel as [|fuel IH]; intros k σ pr npr Hinv.
  - exists None, σ. split; [done|]. by intros l [=].
  - pose proof Hinv as (Hne & _).
    destruct (pass_ok corpus d σ pr npr k Hinv)
      as (old & new & b & Hpr & Hold & Hpass & Hnew & Hconv & Hb).
    destruct b.
    + exists (Some pr), (<[npr := new]> σ). split.
      * cbn [while_true]. erewrite bind_ok by exact Hpass.
        by erewrite bind_ok by exact Hconv.
      * intros l [= <-]. exists old. split; [by rewrite lookup_insert_ne|].
        apply Hold.
    + destruct (copy_inv corpus d σ pr npr new k)
        as (pr' & σ1 & Hcopy & _ & _ & Hinv'); [done|by eexists|done|].
      destruct (IH (S k) σ1 pr' npr Hinv') as (o & σ' & Hrun & Ho).
      exists o, σ'. split; [|done]. cbn [while_true].
      erewrite bind_ok by exact Hpass. erewrite bind_ok by exact Hconv.
      cbv beta iota. by erewrite bind_ok by exact Hcopy.
Qed.

(** X7: [iterate_pagerank] raises nothing, whatever the corpus (empty, or
    with links that leave it) and the damping factor: every division and
    every dict access in it succeeds, and a dict it returns has the pages
    of the corpus as its keys. *)
Theorem iterate_pagerank_no_raise fuel :
  ∃ o, iterate_pagerank corpus d fuel = Ok o
       ∧ ∀ r, o = Some r → dom r = dom corpus.
Proof.
  destruct (iterate_setup_ok corpus d ∅)
    as (pr & npr & σ0 & init & Hsetup & Hne & Hpr & Hnpr & Hinit).
  assert (Hinv : loop_inv corpus d σ0 pr npr 0).
  { split; [done|]. exists init, init. repeat split; try done; apply Hinit. }
  destruct (while_true_no_raise fuel 0 σ0 pr npr Hinv) as (o & σ' & Hrun & Ho).
  unfold iterate_pagerank, iterate_pagerank_st.
  erewrite bind_ok by exact Hsetup. simpl. rewrite Hrun.
  destruct o as [l|].
  - destruct (Ho l eq_refl) as (r & Hr & Hdom). rewrite Hr.
    exists (Some r). split; [done|]. by intros r' [= <-].
  - exists None. split; [done|]. by intros r [=].
Qed.

Lemma update_lower r p :
  0 <= d → (∀ q, q ∈ dom corpus → 0 <= r q) →
  (1 - d) / Qnat (size corpus) <= update corpus d r p.
Proof.
  intros Hd Hr. rewrite update_weight.
  assert (0 <= sumQ (λ q, weight corpus d q p * r q) (keys corpus)); [|lra].
  apply sumQ_nonneg. intros q Hq%elem_of_keys.
  apply Qmult_le_0_compat; [by apply weight_nonneg|by apply Hr].
Qed.

Lemma ranks_lower k p :
  0 <= d → d <= 1 → (0 < size corpus)%nat →
  (1 - d) / Qnat (size corpus) <= ranks k p.
Proof.
  intros Hd0 Hd1 HN. destruct k as [|k]; cbn [iterate_ranks].
  - unfold Qdiv. apply Qmult_le_compat_r; [lra|].
    apply Qinv_le_0_compat, Qnat_nonneg.
  - apply update_lower; [done|]. intros q _. by apply ranks_nonneg.
Qed.

Lemma ranks_upper k p :
  valid_corpus corpus → 0 <= d → d <= 1 → p ∈ dom corpus → ranks k p <= 1.
Proof.
  intros Hv Hd0 Hd1 Hp.
  rewrite <- (ranks_sum corpus d k Hv) by (by eapply size_pos_elem).
  apply (sumQ_term_le (ranks k)).
  - intros q _. by apply ranks_nonneg.
  - by apply elem_of_keys.
Qed.

(** X8: With damping in (0,1), every rank in a dict that
    [iterate_pagerank] returns is at least [(1-d)/N], hence positive:
    no page is ranked 0, whatever the links. *)
Theorem iterate_pagerank_bounds fuel (r : gmap Page Q) :
  0 < d → d < 1 →
  iterate_pagerank corpus d fuel = Ok (Some r) →
  ∀ p v, r !! p = Some v →
    0 < v ∧ (1 - d) / Qnat (size corpus) <= v.
Proof.
  intros Hd0 Hd1 Hret p v Hp.
  destruct (iterate_pagerank_returned corpus d fuel r Hret)
    as (k & _ & _ & _ & Hdom & Hval).
  assert (HN : (0 < size corpus)%nat).
  { eapply (size_pos_elem _ p). rewrite <- Hdom. by eapply elem_of_dom_2. }
  rewrite (Hval p v Hp).
  assert (Hlow : (1 - d) / Qnat (size corpus) <= ranks k p)
    by (apply ranks_lower; [lra..|done]).
  assert (0 < (1 - d) / Qnat (size corpus)).
  { apply Qlt_shift_div_l; [by apply Qnat_pos|]. lra. }
  split; [lra|done].
Qed.
End iterate_more.

Lemma iterate_pagerank_bounds_witness :
  ∃ r : gmap Page Q,
    iterate_pagerank ex2 (1 # 2) 20 = Ok (Some r)
    ∧ ∀ p v, r !! p = Some v →
        0 < v ∧ (1 - (1 # 2)) / Qnat (size ex2) <= v.
Proof.
  eexists. split; [vm_compute; reflexivity|].
  apply (iterate_pagerank_bounds ex2 (1 # 2) 20).
  - reflexivity.
  - reflexivity.
  - vm_compute. reflexivity.
Defined.

Section dangling.
Variable corpus : gmap Page (gset Page).
Variable d : Q.
Variable q0 : Page.
Hypothesis Hq0 : corpus !! q0 = Some ∅.

Local Abbreviation corpus' := (<[q0 := dom corpus]> corpus).

Lemma dangling_dom : dom corpus' = dom corpus.
Proof.
  rewrite dom_insert_L. apply subseteq_union_1_L.
  apply singleton_subseteq_l. by eapply elem_of_dom_2.
Qed.

Lemma dangling_size : size corpus' = size corpus.
Proof. by rewrite <- !size_dom, dangling_dom. Qed.

Lemma update_dangling_as_all r p :
  p ∈ dom corpus → update corpus' d r p == update corpus d r p.
Proof.
  intros Hp. unfold update. rewrite dangling_size.
  apply Qplus_comp; [reflexivity|].
  rewrite (sumQ_perm _ (keys corpus') (keys corpus))
    by (apply keys_perm, dangling_dom).
  apply sumQ_ext. intros q _. unfold links_of.
  destruct (decide (q = q0)) as [->|Hne].
  - rewrite lookup_insert_eq, Hq0. simpl. rewrite size_dom.
    rewrite decide_True by done.
    rewrite (decide_False (P := dom corpus = ∅)).
    2:{ intros E. rewrite E in Hp. by apply not_elem_of_empty in Hp. }
    rewrite (decide_False (P := p ∈ (∅ : gset Page))) by apply not_elem_of_empty.
    rewrite decide_True by done. ring.
  - rewrite lookup_insert_ne by done. reflexivity.
Qed.

Lemma ranks_dangling_as_all k : ∀ p,
  p ∈ dom corpus → iterate_ranks corpus' d k p == iterate_ranks corpus d k p.
Proof.
  induction k as [|k IH]; intros p Hp; cbn [iterate_ranks].
  - rewrite dangling_size. reflexivity.
  - rewrite <- (update_dangling_as_all _ p Hp).
    apply update_ext. intros q Hq. apply IH. by rewrite <- dangling_dom.
Qed.

Lemma settled_dangling_as_all k :
  settled corpus' d (iterate_ranks corpus' d k)
  ↔ settled corpus d (iterate_ranks corpus d k).
Proof.
  unfold settled. rewrite dangling_dom.
  split; intros H p Hp; specialize (H p Hp).
  - rewrite <- (ranks_dangling_as_all (S k) p Hp),
            <- (ranks_dangling_as_all k p Hp). exact H.
  - change (update corpus' d (iterate_ranks corpus' d k) p)
      with (iterate_ranks corpus' d (S k) p).
    rewrite (ranks_dangling_as_all (S k) p Hp), (ranks_dangling_as_all k p Hp).
    exact H.
Qed.

(** X9: "Treat no links as a link to all", in the iteration: giving a page
    without links the whole corpus as its link set changes nothing; with
    the same fuel both runs are still going, or both return dicts with
    equal ranks. *)
Theorem iterate_pagerank_dangling_as_all fuel :
  same_ranks (iterate_pagerank corpus' d fuel) (iterate_pagerank corpus d fuel).
Proof.
  destruct fuel as [|K].
  { rewrite !iterate_pagerank_short by (intros; lia). done. }
  destruct (first_settled_upto corpus d K) as [(k & Hk & Hs & Hmin)|Hnone].
  - destruct (iterate_pagerank_run corpus d k Hs Hmin) as (r & Hrun & Hr).
    destruct (iterate_pagerank_run corpus' d k) as (r' & Hrun' & Hr').
    { by apply settled_dangling_as_all. }
    { intros j Hj Hc%settled_dangling_as_all. by apply (Hmin j). }
    rewrite Hrun, Hrun' by lia. simpl.
    destruct Hr as [Hd Hv], Hr' as [Hd' Hv'].
    split; [by rewrite Hd, Hd', dangling_dom|].
    intros p. unfold rank_of.
    destruct (r' !! p) as [v'|] eqn:E'.
    + assert (Hp : p ∈ dom corpus).
      { rewrite <- dangling_dom, <- Hd'. by eapply elem_of_dom_2. }
      assert (is_Some (r !! p)) as [v E] by (apply elem_of_dom; by rewrite Hd).
      rewrite E. simpl. rewrite (Hv' p v' E'), (Hv p v E).
      by apply ranks_dangling_as_all.
    + assert (r !! p = None) as ->; [|reflexivity].
      apply not_elem_of_dom. rewrite Hd, <- dangling_dom, <- Hd'.
      by apply not_elem_of_dom.
  - rewrite !iterate_pagerank_short; [done| |].
    + intros j Hj. apply Hnone. lia.
    + intros j Hj Hc%settled_dangling_as_all. apply (Hnone j); [lia|done].
Qed.
End dangling.

Lemma iterate_pagerank_dangling_as_all_witness :
  same_ranks (iterate_pagerank (<["C" := dom ex3]> ex3) (85 # 100) 20)
             (iterate_pagerank ex3 (85 # 100) 20).
Proof.
  apply (iterate_pagerank_dangling_as_all ex3 (85 # 100) "C"). reflexivity.
Defined.

(** X10: On a corpus without any link the uniform ranks are a fixed point:
    for a damping factor in (0,1) the test passes in the first pass and
    [iterate_pagerank] returns [1/N] for every page. *)
Theorem iterate_pagerank_no_links corpus d fuel :
  map_Forall (λ _ ls, ls = ∅) corpus → 0 < d → d < 1 →
  ∃ r : gmap Page Q,
    iterate_pagerank corpus d (S fuel) = Ok (Some r)
    ∧ dom r = dom corpus
    ∧ ∀ p v, r !! p = Some v → v == 1 / Qnat (size corpus).
Proof.
  intros Hno _ _.
  assert (Hs : settled corpus d (iterate_ranks corpus d 0)).
  { intros p Hp. cbn [iterate_ranks].
    assert (HN : (0 < size corpus)%nat) by (by eapply size_pos_elem).
    pose proof (Qnat_pos _ HN) as HNq.
    assert (E : update corpus d (λ _, 1 / Qnat (size corpus)) p
                == 1 / Qnat (size corpus)).
    { unfold update.
      rewrite (sumQ_ext _ (λ _, d * (1 / Qnat (size corpus) / Qnat (size corpus)))).
      - rewrite sumQ_const, length_keys. field. lra.
      - intros q Hq%elem_of_keys. apply elem_of_dom in Hq as [ls Hq].
        rewrite (links_of_lookup corpus q ls Hq), (Hno q ls Hq).
        rewrite decide_False by apply not_elem_of_empty.
        rewrite decide_True by done. ring. }
    rewrite E.
    assert (E0 : 1 / Qnat (size corpus) - 1 / Qnat (size corpus) == 0) by ring.
    rewrite E0. reflexivity. }
  destruct (iterate_pagerank_run corpus d 0 Hs) as (r & Hrun & Hdom & Hval);
    [intros j Hj; lia|].
  exists r. split; [apply Hrun; lia|]. split; [done|].
  intros p v Hp. by rewrite (Hval p v Hp).
Qed.

Lemma iterate_pagerank_no_links_witness :
  ∃ r : gmap Page Q,
    iterate_pagerank ex_nolinks (85 # 100) 1 = Ok (Some r)
    ∧ dom r = dom ex_nolinks
    ∧ ∀ p v, r !! p = Some v → v == 1 / Qnat (size ex_nolinks).
Proof.
  apply (iterate_pagerank_no_links ex_nolinks (85 # 100) 0).
  - apply (bool_decide_unpack _). vm_compute. exact I.
  - reflexivity.
  - reflexivity.
Defined.

(** ** The two estimators share one chain *)

Lemma tm_prob_weight corpus d q p :
  q ∈ dom corpus → p ∈ dom corpus →
  tm_prob corpus d q p
  == (1 - d) / Qnat (size corpus) + weight corpus d q p.
Proof.
  intros [ls Hls]%elem_of_dom Hp. unfold tm_prob.
  destruct (transition_model_lookup corpus q d ls Hls) as (pd & -> & _ & Hpd).
  unfold rank_of. rewrite Hpd, decide_True by done. simpl.
  rewrite tm_value_split. apply Qplus_comp; [reflexivity|].
  unfold weight, effective_links. rewrite (links_of_lookup corpus q ls Hls).
  case_bool_decide as E.
  - subst ls. rewrite size_dom, decide_True by done.
    rewrite decide_False by apply not_elem_of_empty.
    rewrite decide_True by done. ring.
  - rewrite (decide_False (P := ls = ∅)) by done.
    destruct (decide (p ∈ ls)); ring.
Qed.

(** X11: One pass of [iterate_pagerank] is one step of the chain that
    [sample_pagerank] walks: on a valid corpus the new rank of [p] is the
    sum over all pages [q] of the previous rank of [q] times the
    probability [transition_model] gives to the move from [q] to [p]. *)
Theorem relax_pass_is_transition_step corpus d σ pr npr :
  valid_corpus corpus →
  loop_entry corpus d σ pr npr →
  ∃ old new : gmap Page Q,
    σ !! pr = Some old
    ∧ relax_pass corpus d pr npr σ = Ok ((), <[npr := new]> σ)
    ∧ ∀ p, p ∈ dom corpus →
        rank_of new p
        == sumQ (λ q, rank_of old q * tm_prob corpus d q p) (keys corpus).
Proof.
  intros Hv [k Hinv]%loop_entry_inv.
  destruct Hinv as (Hne & old & new0 & Hpr & Hnpr & Hold & Hdn).
  destruct (relax_pass_ok corpus d σ pr npr old new0 Hne Hpr Hnpr)
    as (new & Hrun & Hnew); [apply Hold|done|].
  exists old, new. split; [done|]. split; [done|]. intros p Hp.
  assert (HN : (0 < size corpus)%nat) by (by eapply size_pos_elem).
  assert (Hsum : sumQ (rank_of old) (keys corpus) == 1).
  { rewrite <- (ranks_sum corpus d k Hv HN). apply sumQ_ext.
    intros q Hq%elem_of_keys. exact (holds_ranks_rank_of corpus old _ q Hold Hq). }
  rewrite (holds_ranks_rank_of corpus new _ p Hnew Hp), update_weight.
  rewrite (sumQ_ext (λ q, rank_of old q * tm_prob corpus d q p)
             (λ q, (1 - d) / Qnat (size corpus) * rank_of old q
                   + weight corpus d q p * rank_of old q)).
  - rewrite sumQ_plus, sumQ_scal, Hsum. ring.
  - intros q Hq%elem_of_keys. rewrite tm_prob_weight by done. ring.
Qed.

Lemma relax_pass_is_transition_step_witness :
  ∃ σ pr npr,
    iterate_setup ex3 ∅ = Ok ((pr, npr), σ)
    ∧ ∃ old new : gmap Page Q,
        σ !! pr = Some old
        ∧ relax_pass ex3 (85 # 100) pr npr σ = Ok ((), <[npr := new]> σ)
        ∧ ∀ p, p ∈ dom ex3 →
            rank_of new p
            == sumQ (λ q, rank_of old q * tm_prob ex3 (85 # 100) q p) (keys ex3).
Proof.
  eexists _, _, _. split; [vm_compute; reflexivity|].
  apply (relax_pass_is_transition_step ex3 (85 # 100)).
  - apply (bool_decide_unpack _). vm_compute. exact I.
  - apply entry_first. vm_compute. reflexivity.
Defined.

(** ** crawl *)

Example endswith_examples :
  endswith "1.html" ".html" = true ∧ endswith ".html" ".html" = true
  ∧ endswith "html" ".html" = false ∧ endswith "1.html.bak" ".html" = false.
Proof. repeat split. Qed.

Section crawl.
Variable findall : string → list Page.
Variable directory : gmap Page string.

Local Abbreviation raw := (raw_links findall).

Lemma crawl_collect_html k (pages : gmap Page (gset Page)) c :
  directory !! k = Some c → endswith k ".html" = true →
  crawl_collect findall directory k pages = Ok (<[k := raw k c]> pages).
Proof. intros Hc He. unfold crawl_collect, getitem. by rewrite He, Hc. Qed.

Lemma crawl_collect_other k (pages : gmap Page (gset Page)) :
  endswith k ".html" = false →
  crawl_collect findall directory k pages = Ok pages.
Proof. intros He. unfold crawl_collect. by rewrite He. Qed.

Lemma crawl_restrict_step k (pages : gmap Page (gset Page)) ls :
  pages !! k = Some ls →
  crawl_restrict k pages
  = Ok (<[k := filter (λ link, link ∈ dom pages) ls]> pages).
Proof. intros H. unfold crawl_restrict, getitem. by rewrite H. Qed.

(** Lines 33-39: the first loop keeps the ".html" entries. *)
Lemma crawl_collect_ok : ∀ ks (pages0 : gmap Page (gset Page)),
  NoDup ks → (∀ f, f ∈ ks → f ∈ dom directory) →
  ∃ pages,
    for_each ks pages0 (crawl_collect findall directory) = Ok pages
    ∧ ∀ f, pages !! f
           = if decide (f ∈ ks ∧ endswith f ".html" = true)
             then raw f <$> directory !! f else pages0 !! f.
Proof.
  induction ks as [|k ks IH]; intros pages0 Hnd Hin; cbn [for_each].
  - exists pages0. split; [done|]. intros f.
    rewrite decide_False; [done|]. intros [H _]. by apply not_elem_of_nil in H.
  - apply NoDup_cons in Hnd as [Hk Hnd].
    assert (Hkd : is_Some (directory !! k)) by (apply elem_of_dom, Hin; by left).
    destruct Hkd as [c Hc].
    destruct (endswith k ".html") eqn:Hend.
    + rewrite (crawl_collect_html k pages0 c) by done. cbn [mbind result_bind].
      destruct (IH (<[k := raw k c]> pages0) Hnd) as (pages & Hrun & Hl);
        [intros; apply Hin; by right|].
      exists pages. split; [done|]. intros f. rewrite Hl.
      destruct (decide (f = k)) as [->|Hne].
      * rewrite decide_False by (by intros [? _]).
        rewrite lookup_insert_eq, decide_True, Hc; [done|].
        split; [by left|done].
      * rewrite lookup_insert_ne by done.
        destruct (decide (f ∈ ks ∧ endswith f ".html" = true)) as [[? ?]|Hn].
        -- rewrite decide_True; [done|]. split; [by right|done].
        -- rewrite decide_False; [done|]. intros [[?|?]%elem_of_cons ?]; [done|].
           by apply Hn.
    + rewrite crawl_collect_other by done. cbn [mbind result_bind].
      destruct (IH pages0 Hnd) as (pages & Hrun & Hl);
        [intros; apply Hin; by right|].
      exists pages. split; [done|]. intros f. rewrite Hl.
      destruct (decide (f ∈ ks ∧ endswith f ".html" = true)) as [[? ?]|Hn].
      * rewrite decide_True; [done|]. split; [by right|done].
      * rewrite decide_False; [done|].
        intros [[->|?]%elem_of_cons ?]; [congruence|by apply Hn].
Qed.

(** Lines 42-46: the second loop rewrites every value and no key, so the
    test [link in pages] means the same throughout. *)
Lemma crawl_restrict_ok (D : gset Page) : ∀ ks (pages0 : gmap Page (gset Page)),
  NoDup ks → dom pages0 = D → (∀ f, f ∈ ks → f ∈ D) →
  ∃ pages,
    for_each ks pages0 crawl_restrict = Ok pages
    ∧ dom pages = D
    ∧ ∀ f, pages !! f
           = if decide (f ∈ ks)
             then filter (λ link, link ∈ D) <$> pages0 !! f else pages0 !! f.
Proof.
  induction ks as [|k ks IH]; intros pages0 Hnd Hdom Hin; cbn [for_each].
  - exists pages0. split; [done|]. split; [done|]. intros f.
    by rewrite decide_False by apply not_elem_of_nil.
  - apply NoDup_cons in Hnd as [Hk Hnd].
    assert (Hkd : is_Some (pages0 !! k)).
    { apply elem_of_dom. rewrite Hdom. apply Hin. by left. }
    destruct Hkd as [ls Hls].
    rewrite (crawl_restrict_step k pages0 ls) by done.
    cbn [mbind result_bind]. rewrite Hdom.
    destruct (IH (<[k := filter (λ link, link ∈ D) ls]> pages0) Hnd)
      as (pages & Hrun & Hd & Hl).
    { rewrite dom_insert_L, Hdom. apply subseteq_union_1_L.
      apply singleton_subseteq_l, Hin. by left. }
    { intros; apply Hin; by right. }
    exists pages. split; [done|]. split; [done|]. intros f. rewrite Hl.
    destruct (decide (f = k)) as [->|Hne].
    + rewrite decide_False by done. rewrite lookup_insert_eq.
      rewrite decide_True by (by left). by rewrite Hls.
    + rewrite lookup_insert_ne by done.
      destruct (decide (f ∈ ks)) as [?|Hn].
      * rewrite decide_True; [done|by right].
      * rewrite decide_False; [done|]. by intros [?|?]%elem_of_cons.
Qed.

(** What [crawl] returns, key by key. *)
Lemma crawl_lookup :
  ∃ pages,
    crawl findall directory = Ok pages
    ∧ dom pages = html_files directory
    ∧ ∀ f, pages !! f
           = if decide (f ∈ html_files directory)
             then (λ c, filter (λ link, link ∈ html_files directory) (raw f c))
                  <$> directory !! f
             else None.
Proof.
  destruct (crawl_collect_ok (keys directory) ∅) as (pages1 & Hrun1 & Hl1).
  { apply NoDup_keys. }
  { intros f. by rewrite elem_of_keys. }
  assert (Hl1' : ∀ f, pages1 !! f
            = if decide (f ∈ html_files directory)
              then raw f <$> directory !! f else None).
  { intros f. rewrite Hl1. unfold html_files.
    destruct (decide (f ∈ keys directory ∧ endswith f ".html" = true)) as [[H1 H2]|Hn].
    - rewrite decide_True; [done|]. apply elem_of_filter.
      split; [done|]. by apply elem_of_keys.
    - rewrite decide_False; [by rewrite lookup_empty|].
      intros [? ?]%elem_of_filter. apply Hn. split; [|done]. by apply elem_of_keys. }
  assert (Hd1 : dom pages1 = html_files directory).
  { apply set_eq. intros f. rewrite elem_of_dom, Hl1'.
    destruct (decide (f ∈ html_files directory)) as [Hf|Hf].
    - split; [done|]. intros _. unfold html_files in Hf.
      apply elem_of_filter in Hf as [_ [c Hc]%elem_of_dom]. rewrite Hc. by eexists.
    - split; [by intros [? ?]|done]. }
  destruct (crawl_restrict_ok (html_files directory) (keys pages1) pages1)
    as (pages & Hrun & Hd & Hl).
  { apply NoDup_keys. }
  { done. }
  { intros f. by rewrite elem_of_keys, Hd1. }
  exists pages. split.
  { unfold crawl. rewrite Hrun1. cbn [mbind result_bind]. exact Hrun. }
  split; [done|]. intros f. rewrite Hl, Hl1'.
  destruct (decide (f ∈ html_files directory)) as [Hf|Hf].
  - rewrite decide_True by (by rewrite elem_of_keys, Hd1).
    by destruct (directory !! f).
  - by destruct (decide (f ∈ keys pages1)).
Qed.

(** X14: [crawl] raises nothing, and what it returns is a corpus as the
    estimators need it: its pages are exactly the ".html" entries of the
    directory, every link leads to a page of the corpus, and no page
    links to itself. *)
Theorem crawl_valid :
  ∃ pages,
    crawl findall directory = Ok pages
    ∧ valid_corpus pages
    ∧ (∀ f ls, pages !! f = Some ls → f ∉ ls)
    ∧ (∀ f, f ∈ dom pages ↔ f ∈ dom directory ∧ endswith f ".html" = true).
Proof.
  destruct crawl_lookup as (pages & Hrun & Hdom & Hl).
  exists pages. split; [done|]. split; [|split].
  - intros f ls Hf. simpl. rewrite Hl in Hf.
    destruct (decide (f ∈ html_files directory)); [|done].
    destruct (directory !! f) as [c|]; [|done]. injection Hf as <-.
    rewrite Hdom. intros link [? _]%elem_of_filter. done.
  - intros f ls Hf. rewrite Hl in Hf.
    destruct (decide (f ∈ html_files directory)); [|done].
    destruct (directory !! f) as [c|]; [|done]. injection Hf as <-.
    intros [_ Hin]%elem_of_filter. unfold raw_links in Hin.
    apply elem_of_difference in Hin as [_ Hne].
    apply Hne. by apply elem_of_singleton.
  - intros f. rewrite Hdom. unfold html_files. rewrite elem_of_filter. tauto.
Qed.

(** X15: The links [crawl] keeps for a page are the targets found in its
    text, less the page itself, less the targets that are not ".html"
    entries of the directory. *)
Theorem crawl_links f c :
  directory !! f = Some c → endswith f ".html" = true →
  ∃ pages ls,
    crawl findall directory = Ok pages
    ∧ pages !! f = Some ls
    ∧ ∀ link, link ∈ ls ↔
        link ∈ findall c ∧ link ≠ f
        ∧ link ∈ dom directory ∧ endswith link ".html" = true.
Proof.
  intros Hc Hend.
  destruct crawl_lookup as (pages & Hrun & Hdom & Hl).
  exists pages, (filter (λ link, link ∈ html_files directory) (raw f c)).
  split; [done|]. split.
  - rewrite Hl, decide_True, Hc; [done|]. unfold html_files.
    apply elem_of_filter. split; [done|]. by eapply elem_of_dom_2.
  - intros link. unfold raw_links. rewrite elem_of_filter, elem_of_difference.
    rewrite elem_of_list_to_set, elem_of_singleton.
    unfold html_files. rewrite elem_of_filter. tauto.
Qed.
End crawl.

Lemma crawl_links_witness :
  ∃ pages ls,
    crawl ex_findall ex_dir = Ok pages
    ∧ pages !! "1.html" = Some ls
    ∧ ∀ link, link ∈ ls ↔
        link ∈ ex_findall "2.html 3.html 1.html style.css" ∧ link ≠ "1.html"
        ∧ link ∈ dom ex_dir ∧ endswith link ".html" = true.
Proof.
  apply (crawl_links ex_findall ex_dir "1.html"); reflexivity.
Defined.

(** ** From the directory to the ranks *)

Lemma crawl_run findall directory :
  ∃ pages,
    crawl findall directory = Ok pages
    ∧ dom pages = html_files directory
    ∧ valid_corpus pages.
Proof.
  destruct (crawl_lookup findall directory) as (pages & Hrun & Hdom & Hl).
  exists pages. split; [done|]. split; [done|].
  intros f ls Hf. simpl. rewrite Hl in Hf.
  destruct (decide (f ∈ html_files directory)); [|done].
  destruct (directory !! f) as [c|]; [|done]. injection Hf as <-.
  rewrite Hdom. by intros link [? _]%elem_of_filter.
Qed.

Lemma transition_model_sum_one corpus page d :
  valid_corpus corpus → page ∈ dom corpus →
  ∃ pd, transition_model corpus page d = Ok pd
        ∧ dom pd = dom corpus ∧ dict_sum pd == 1.
Proof.
  intros Hv [ls Hls]%elem_of_dom.
  destruct (transition_model_lookup corpus page d ls Hls) as (pd & Hrun & Hdom & Hpd).
  exists pd. split; [done|]. split; [done|].
  rewrite (dict_sum_fun pd (tm_value corpus d (effective_links corpus ls))).
  - rewrite (sumQ_perm _ _ (keys corpus)) by (by apply keys_perm).
    apply tm_value_sum.
    + eapply size_pos_elem, elem_of_dom_2, Hls.
    + eapply effective_links_pos, Hls.
    + eapply effective_links_sub; eauto.
  - intros k v. rewrite Hpd. case_decide; [|done]. by intros [= <-].
Qed.

(** X16: Whatever the directory holds, the corpus [crawl] builds from it
    meets the precondition of [transition_model]: for every page of the
    corpus the transition probabilities are defined and sum to 1. *)
Theorem crawl_transition_model findall directory d :
  ∃ pages,
    crawl findall directory = Ok pages
    ∧ ∀ page, page ∈ dom pages →
        ∃ pd, transition_model pages page d = Ok pd
              ∧ dom pd = dom pages ∧ dict_sum pd == 1.
Proof.
  destruct (crawl_run findall directory) as (pages & Hrun & _ & Hv).
  exists pages. split; [done|]. intros page Hp.
  by apply transition_model_sum_one.
Qed.

(** X17: From a directory with at least one ".html" file, [crawl] followed
    by [iterate_pagerank], as [main] runs them: a dict that the iteration
    returns gives every ".html" file a non-negative rank, the ranks
    summing to 1. *)
Theorem crawl_iterate_pagerank findall directory d :
  html_files directory ≠ ∅ → 0 < d → d < 1 →
  ∃ pages,
    crawl findall directory = Ok pages
    ∧ ∀ fuel (r : gmap Page Q),
        iterate_pagerank pages d fuel = Ok (Some r) →
        dom r = html_files directory
        ∧ (∀ p v, r !! p = Some v → 0 <= v)
        ∧ dict_sum r == 1.
Proof.
  intros Hne Hd0 Hd1.
  destruct (crawl_run findall directory) as (pages & Hrun & Hdom & Hv).
  assert (HN : (0 < size pages)%nat).
  { rewrite <- size_dom, Hdom.
    destruct (decide (size (html_files directory) = 0%nat)) as [E|]; [|lia].
    apply size_empty_iff, leibniz_equiv in E. done. }
  exists pages. split; [done|]. intros fuel r Hret.
  destruct (iterate_pagerank_returned pages d fuel r Hret)
    as (k & _ & _ & _ & Hr).
  split; [destruct Hr as [-> _]; done|]. split.
  - intros p v Hp. destruct Hr as [_ Hval]. rewrite (Hval p v Hp).
    apply ranks_nonneg; lra.
  - rewrite (holds_ranks_sum _ _ _ Hr). by apply ranks_sum.
Qed.

Lemma crawl_iterate_pagerank_witness :
  ∃ pages (r : gmap Page Q),
    crawl ex_findall ex_dir = Ok pages
    ∧ iterate_pagerank pages (1 # 2) 20 = Ok (Some r)
    ∧ dom r = html_files ex_dir
    ∧ (∀ p v, r !! p = Some v → 0 <= v)
    ∧ dict_sum r == 1.
Proof.
  destruct (crawl_iterate_pagerank ex_findall ex_dir (1 # 2))
    as (pages & Hrun & Hret).
  - apply (bool_decide_unpack _). vm_compute. exact I.
  - reflexivity.
  - reflexivity.
  - vm_compute in Hrun. injection Hrun as <-.
    eexists _, _. split; [vm_compute; reflexivity|].
    split; [vm_compute; reflexivity|].
    apply (Hret 20%nat). vm_compute. reflexivity.
Defined.

(** X18: From a directory without any ".html" file [crawl] returns the empty
    corpus, and the sampling that [main] runs next fails with
    [IndexError] before any rank is computed. *)
Theorem crawl_sample_pagerank_no_html findall directory rng d n :
  html_files directory = ∅ →
  crawl findall directory = Ok ∅
  ∧ (corpus ← crawl findall directory; sample_pagerank rng corpus d n)
    = Raise IndexError.
Proof.
  intros Hno.
  destruct (crawl_lookup findall directory) as (pages & Hrun & Hdom & _).
  assert (pages = ∅) as ->.
  { apply dom_empty_iff_L. by rewrite Hdom. }
  split; [done|]. by rewrite Hrun.
Qed.

Lemma crawl_sample_pagerank_no_html_witness :
  crawl ex_findall (<["style.css" := "1.html"]> ∅) = Ok ∅
  ∧ (corpus ← crawl ex_findall (<["style.css" := "1.html"]> ∅);
     sample_pagerank rng7 corpus (85 # 100) 10)
    = Raise IndexError.
Proof.
  apply (crawl_sample_pagerank_no_html ex_findall
           (<["style.css" := "1.html"]> ∅) rng7 (85 # 100) 10).
  reflexivity.
Defined.

(** ** How fast and how far the iteration goes *)

Section speed.
Variable corpus : gmap Page (gset Page).
Variable d : Q.
Hypothesis Hvalid : valid_corpus corpus.
Hypothesis Hd0 : 0 <= d.
Hypothesis Hd1 : d <= 1.

Local Abbreviation ranks := (iterate_ranks corpus d).

Lemma change_nonneg k : 0 <= change corpus d k.
Proof. apply sumQ_nonneg. intros; apply Qabs_nonneg. Qed.

Lemma change_step k : change corpus d (S k) <= d * change corpus d k.
Proof. apply (update_contraction corpus d (ranks (S k)) (ranks k) Hvalid Hd0). Qed.

Lemma change_from k i : change corpus d (k + i) <= geom d i * change corpus d k.
Proof.
  induction i as [|i IH]; cbn [geom].
  - rewrite Nat.add_0_r. lra.
  - replace (k + S i)%nat with (S (k + i)) by lia.
    eapply Qle_trans; [apply change_step|].
    rewrite <- Qmult_assoc, !(Qmult_comm d). by apply Qmult_le_compat_r.
Qed.

Lemma change_of_settled k :
  settled corpus d (ranks k) → change corpus d k <= Qnat (size corpus) * threshold.
Proof.
  intros Hs. rewrite <- length_keys, <- sumQ_const.
  apply sumQ_le. intros p Hp%elem_of_keys. apply Qlt_le_weak, (Hs p Hp).
Qed.

Lemma drift_bound k m :
  (1 - d) * sumQ (λ p, Qabs (ranks (k + m) p - ranks k p)) (keys corpus)
  <= (1 - geom d m) * change corpus d k.
Proof.
  induction m as [|m IH]; cbn [geom].
  - rewrite Nat.add_0_r.
    rewrite (sumQ_ext _ (λ _, 0)).
    + rewrite sumQ_zero. lra.
    + intros p _. assert (E : ranks k p - ranks k p == 0) by ring.
      rewrite E. reflexivity.
  - replace (k + S m)%nat with (S (k + m)) by lia.
    pose proof (change_from k m) as Hc.
    pose proof (change_nonneg k) as Hk.
    pose proof (geom_nonneg d m Hd0) as Hg.
    assert (Htri : sumQ (λ p, Qabs (ranks (S (k + m)) p - ranks k p)) (keys corpus)
                   <= change corpus d (k + m)
                      + sumQ (λ p, Qabs (ranks (k + m) p - ranks k p)) (keys corpus)).
    { unfold change. rewrite <- sumQ_plus. apply sumQ_le. intros p _.
      assert (E : ranks (S (k + m)) p - ranks k p
                  == (ranks (S (k + m)) p - ranks (k + m) p)
                     + (ranks (k + m) p - ranks k p)) by ring.
      rewrite E. apply Qabs_triangle. }
    set (D := sumQ (λ p, Qabs (ranks (k + m) p - ranks k p)) (keys corpus)) in *.
    set (D' := sumQ (λ p, Qabs (ranks (S (k + m)) p - ranks k p)) (keys corpus)) in *.
    set (c := change corpus d k) in *. set (cm := change corpus d (k + m)) in *.
    set (g := geom d m) in *.
    assert (H1 : (1 - d) * D' <= (1 - d) * (cm + D)).
    { rewrite !(Qmult_comm (1 - d)). apply Qmult_le_compat_r; lra. }
    assert (H2 : (1 - d) * cm <= (1 - d) * (g * c)).
    { rewrite !(Qmult_comm (1 - d)). apply Qmult_le_compat_r; lra. }
    assert (E1 : (1 - d) * (cm + D) == (1 - d) * cm + (1 - d) * D) by ring.
    assert (E2 : (1 - d * g) * c == (1 - g) * c + (1 - d) * (g * c)) by ring.
    lra.
Qed.

(** X13: How far the returned ranks are from where the iteration is
    heading: a returned dict holds an iterate of the update, and however
    many further exact passes were run from it, the sum over all pages
    of the distance to the returned rank would stay below
    [N * 0.001 / (1 - d)]. *)
Theorem iterate_pagerank_accuracy fuel (r : gmap Page Q) :
  iterate_pagerank corpus d fuel = Ok (Some r) →
  ∃ k : nat,
    holds_ranks corpus r (ranks k)
    ∧ ∀ m, (1 - d) * sumQ (λ p, Qabs (ranks (k + m) p - rank_of r p)) (keys corpus)
           <= Qnat (size corpus) * threshold.
Proof.
  intros Hret.
  destruct (iterate_pagerank_returned corpus d fuel r Hret)
    as (k & _ & Hk & _ & Hr).
  exists k. split; [done|]. intros m.
  rewrite (sumQ_ext _ (λ p, Qabs (ranks (k + m) p - ranks k p))).
  2:{ intros p Hp%elem_of_keys.
      rewrite (holds_ranks_rank_of corpus r _ p Hr Hp). reflexivity. }
  eapply Qle_trans; [apply drift_bound|].
  pose proof (change_of_settled k Hk) as Hc.
  pose proof (change_nonneg k) as Hc0.
  pose proof (geom_nonneg d m Hd0) as Hg.
  assert (E : (1 - geom d m) * change corpus d k
              == change corpus d k - geom d m * change corpus d k) by ring.
  assert (0 <= geom d m * change corpus d k) by (by apply Qmult_le_0_compat).
  lra.
Qed.
End speed.

Lemma iterate_pagerank_accuracy_witness :
  ∃ (r : gmap Page Q) (k : nat),
    iterate_pagerank ex2 (1 # 2) 20 = Ok (Some r)
    ∧ holds_ranks ex2 r (iterate_ranks ex2 (1 # 2) k)
    ∧ ∀ m, (1 - (1 # 2))
           * sumQ (λ p, Qabs (iterate_ranks ex2 (1 # 2) (k + m) p - rank_of r p))
                  (keys ex2)
           <= Qnat (size ex2) * threshold.
Proof.
  eexists.
  destruct (iterate_pagerank_accuracy ex2 (1 # 2)
              ltac:(apply (bool_decide_unpack _); vm_compute; exact I)
              ltac:(vm_compute; discriminate)
              ltac:(vm_compute; discriminate)
              20%nat _ ltac:(vm_compute; reflexivity)) as (k & Hk).
  exists k. split; [vm_compute; reflexivity|exact Hk].
Defined.
